(** * communitygraph: bipartite community graphs

    A shallow embedding of [communitygraph/bipartite.py] and
    [communitygraph/util.py]: the construction of the filtered weighted
    bipartite graph, its one-mode projection, the memoised projection and
    partition methods, and the grid search over (threshold, resolution).

    The class is modelled on the two columns it reads, with
    [collections.Counter] as an insertion-ordered association list and the
    [nx.Graph] as its two dicts.  The library code the class calls is
    modelled after the libraries: networkx's [add_nodes_from],
    [add_weighted_edges_from] and [weighted_projected_graph], and
    [functools.cache].  The clustering and the modularity of python-louvain
    are parameters: the first draws from a random state, both may raise.
    Console output and timing are left out. *)

From Stdlib Require Import ZArith String List Lia.
From stdpp Require Import base decidable countable strings list sorting gmap fin_maps fin_sets.

#[local] Set Warnings "-clear-no-such-hyp".

(** ** Entities and the edge table *)

(** Node keys are [Union[int, str]] in the source. *)
Inductive entity : Type :=
  | EInt (z : Z)
  | EStr (s : string).

#[global] Instance entity_eq_dec : EqDecision entity.
Proof. solve_decision. Defined.

#[global] Instance entity_countable : Countable entity.
Proof.
  refine (inj_countable'
            (λ e, match e with EInt z => inl z | EStr s => inr s end)
            (λ x, match x with inl z => EInt z | inr s => EStr s end) _).
  by intros [].
Defined.

(** The DataFrame is modelled by the two columns the class reads,
    [df[user_key]] and [df[item_key]]: one row per interaction. *)
Abbreviation row := (entity * entity)%type.
Abbreviation DataFrame := (list row).

Definition user_col (df : DataFrame) : list entity := df.*1.
Definition item_col (df : DataFrame) : list entity := df.*2.

(** ** [collections.Counter]

    A Counter is a dict, so it keeps its keys in the order of their first
    occurrence; [Counter.items()] iterates in that order. *)
Section Counter.
Context {K : Type} `{EqDecision K}.

Fixpoint counter_add (k : K) (c : list (K * nat)) : list (K * nat) :=
  match c with
  | [] => [(k, 1)]
  | (k', n) :: c' =>
      if decide (k = k') then (k', S n) :: c' else (k', n) :: counter_add k c'
  end.

Definition Counter (xs : list K) : list (K * nat) :=
  foldl (λ c x, counter_add x c) [] xs.

(** [c[k]], with the Counter's 0 for a missing key. *)
Fixpoint counter_get (c : list (K * nat)) (k : K) : nat :=
  match c with
  | [] => 0
  | (k', n) :: c' => if decide (k = k') then n else counter_get c' k
  end.

(** [sum(c.values())] and [len(c)]. *)
Definition counter_total (c : list (K * nat)) : nat := sum_list (c.*2).
Definition counter_len (c : list (K * nat)) : nat := length c.

(** Number of occurrences of [k] in a column. *)
Definition occurrences (k : K) (xs : list K) : nat :=
  length (filter (λ x, x = k) xs).
End Counter.

(** ** Degree filtering *)

(** Python truthiness of an [Optional[int]]: [None] and [0] are falsy. *)
Definition truthy (t : option Z) : bool :=
  match t with
  | None => false
  | Some z => negb (z =? 0)%Z
  end.

(** The integer behind a truthy threshold. *)
Definition the (t : option Z) : Z := default 0%Z t.

(** [df[key].value_counts()]: the count of every value of the column.  The
    Series is only used through the mask below, so its order is immaterial. *)
Definition value_counts (column : list entity) : list (entity * nat) :=
  Counter column.

(** [counts[counts >= t].index] *)
Definition index_at_least (counts : list (entity * nat)) (t : Z) : list entity :=
  (filter (λ kn : entity * nat, (t ≤ Z.of_nat kn.2)%Z) counts).*1.

(** [df.loc[df[key].isin(counts[counts >= t].index), :]] for the column
    selected by [key]. *)
Definition filter_min_degree (key : row → entity) (t : Z) (df : DataFrame) : DataFrame :=
  let counts := value_counts (key <$> df) in
  let index := index_at_least counts t in
  filter (λ r, key r ∈ index) df.

(** ** The networkx graph

    [nx.Graph] keeps a dict of node attribute dicts and a symmetric
    dict-of-dicts adjacency.  A node attribute dict is either empty (a node
    created implicitly by an edge) or holds the two keys the class sets
    together, [origin] and [degree]; an edge attribute dict holds [weight]. *)
Record node_data : Type := { origin : string; degree : nat }.

#[global] Instance node_data_eq_dec : EqDecision node_data.
Proof. solve_decision. Defined.

Record Graph : Type := {
  g_node : gmap entity (option node_data);
  g_adj : gmap entity (gmap entity nat)
}.

Definition empty_graph : Graph := {| g_node := ∅; g_adj := ∅ |}.

(** [G[u]]: the adjacency dict of [u] (empty for an unknown node here). *)
Definition adj (G : Graph) (u : entity) : gmap entity nat :=
  default ∅ (g_adj G !! u).

(** [set(G[u])] *)
Definition neighbors (G : Graph) (u : entity) : gset entity := dom (adj G u).

Definition number_of_nodes (G : Graph) : nat := size (g_node G).
Definition edge_weight (G : Graph) (u v : entity) : option nat := adj G u !! v.

(** [G.number_of_edges()]: half the sum of the node degrees, in which a
    self-loop counts twice. *)
Definition node_degree (G : Graph) (v : entity) : nat :=
  size (adj G v) + (if decide (is_Some (adj G v !! v)) then 1 else 0).
Definition number_of_edges (G : Graph) : nat :=
  sum_list (node_degree G <$> elements (dom (g_node G))) / 2.

(** [d.update(new)] on node attribute dicts. *)
Definition update_attrs (old new : option node_data) : option node_data :=
  match new with
  | Some d => Some d
  | None => old
  end.

(** One step of [add_nodes_from] on a [(n, attrs)] tuple: a new node gets an
    empty adjacency and an empty attribute dict, then the attribute dict is
    updated (overwriting [origin] and [degree] of an existing node). *)
Definition add_node (n : entity) (attrs : option node_data) (G : Graph) : Graph :=
  match g_node G !! n with
  | None => {| g_node := <[n := attrs]> (g_node G); g_adj := <[n := ∅]> (g_adj G) |}
  | Some old => {| g_node := <[n := update_attrs old attrs]> (g_node G); g_adj := g_adj G |}
  end.

Definition add_nodes_from (ns : list (entity * node_data)) (G : Graph) : Graph :=
  foldl (λ G nd, add_node nd.1 (Some nd.2) G) G ns.

(** The implicit node creation of [add_edges_from]. *)
Definition touch_node (n : entity) (G : Graph) : Graph :=
  match g_node G !! n with
  | None => {| g_node := <[n := None]> (g_node G); g_adj := <[n := ∅]> (g_adj G) |}
  | Some _ => G
  end.

(** One step of [add_edges_from] on [(u, v, {"weight": w})]: both ends are
    created when missing and the weight is written in both directions, over
    whatever weight the edge had. *)
Definition add_edge (u v : entity) (w : nat) (G : Graph) : Graph :=
  let G1 := touch_node u G in
  let G2 := touch_node v G1 in
  let a1 := <[u := <[v := w]> (adj G2 u)]> (g_adj G2) in
  let a2 := <[v := <[u := w]> (default ∅ (a1 !! v))]> a1 in
  {| g_node := g_node G2; g_adj := a2 |}.

Definition add_weighted_edges_from (es : list (entity * entity * nat)) (G : Graph) : Graph :=
  foldl (λ G e, add_edge e.1.1 e.1.2 e.2 G) G es.

(** ** Exceptions *)

Inductive exn : Type :=
  | Exception (msg : string)
  | NetworkXAlgorithmError
  | ValueError
  | IndexError
  | AssertionError
  | ZeroDivisionError.

Inductive result (A : Type) : Type :=
  | Ok (a : A)
  | Raise (e : exn).
Arguments Ok {A} a.
Arguments Raise {A} e.

(** ** [BipartiteCommunity.__init__] *)

Record BipartiteCommunity : Type := {
  _df : DataFrame;
  _G : Graph;
  user_degree : list (entity * nat);
  item_degree : list (entity * nat)
}.

(** How [__init__] ends: with every attribute bound, or with an exception
    that leaves while only [self._df] and [self._G] are bound. *)
Inductive init_outcome : Type :=
  | Initialized (self : BipartiteCommunity)
  | Aborted (e : exn) (df_bound : DataFrame) (G_bound : Graph).

Definition __init__ (df : DataFrame) (min_user_degree min_item_degree : option Z)
  : init_outcome :=
  (* 1. Init variables *)
  let df0 := df in
  let G0 := empty_graph in
  (* 2. Apply min_degree filters on dataframe *)
  if truthy min_user_degree && truthy min_item_degree then
    Aborted (Exception "See docstring: Illegal settings") df0 G0
  else
    let df1 :=
      if truthy min_user_degree then filter_min_degree fst (the min_user_degree) df0
      else if truthy min_item_degree then filter_min_degree snd (the min_item_degree) df0
      else df0 in
    (* 3. Create graph from the filtered nodes *)
    let user_degree := Counter (user_col df1) in
    let item_degree := Counter (item_col df1) in
    let user_nodes :=
      (λ ud : entity * nat, (ud.1, {| origin := "user"; degree := ud.2 |})) <$> user_degree in
    let item_nodes :=
      (λ id : entity * nat, (id.1, {| origin := "item"; degree := id.2 |})) <$> item_degree in
    let G1 := add_nodes_from (user_nodes ++ item_nodes) G0 in
    (* 4. Add weighted edges based on filtered nodes *)
    let edge_weights := Counter df1 in
    let edge_list := (λ e : row * nat, (e.1.1, e.1.2, e.2)) <$> edge_weights in
    let G2 := add_weighted_edges_from edge_list G1 in
    Initialized {| _df := df1; _G := G2; user_degree := user_degree; item_degree := item_degree |}.

(** The constructor call [BipartiteCommunity(df, user_key, item_key, ...)]
    with both thresholds passed: the instance, or the exception. *)
Definition new (df : DataFrame) (min_user_degree min_item_degree : option Z)
  : result BipartiteCommunity :=
  match __init__ df min_user_degree min_item_degree with
  | Initialized self => Ok self
  | Aborted e _ _ => Raise e
  end.

(** The parameter defaults of [__init__]. *)
Definition default_min_user_degree : option Z := None.
Definition default_min_item_degree : option Z := Some 10%Z.

(** A call in which each threshold is either passed ([Some t], where [t]
    may be [None]) or left out ([None]). *)
Definition construct (df : DataFrame) (min_user_degree min_item_degree : option (option Z))
  : result BipartiteCommunity :=
  new df (default default_min_user_degree min_user_degree)
         (default default_min_item_degree min_item_degree).

(** [describe_bipartite], without its output: the two assertions, and the
    three divisions of the averages it prints. *)
Definition describe_bipartite (self : BipartiteCommunity) : result unit :=
  if negb (counter_len (user_degree self) + counter_len (item_degree self)
           =? number_of_nodes (_G self)) then Raise AssertionError
  else if counter_len (user_degree self) =? 0 then Raise ZeroDivisionError
  else if counter_len (item_degree self) =? 0 then Raise ZeroDivisionError
  else if negb (counter_total (user_degree self) =? counter_total (item_degree self))
       then Raise AssertionError
  else if number_of_edges (_G self) =? 0 then Raise ZeroDivisionError
  else Ok ().

(** The table step 2 leaves in [self._df], and steps 3 and 4 as a function
    of that table. *)
Definition select_rows (df : DataFrame) (min_user_degree min_item_degree : option Z)
  : DataFrame :=
  if truthy min_user_degree then filter_min_degree fst (the min_user_degree) df
  else if truthy min_item_degree then filter_min_degree snd (the min_item_degree) df
  else df.

Definition node_list (df1 : DataFrame) : list (entity * node_data) :=
  ((λ ud : entity * nat, (ud.1, {| origin := "user"; degree := ud.2 |}))
     <$> Counter (user_col df1))
  ++ ((λ id : entity * nat, (id.1, {| origin := "item"; degree := id.2 |}))
        <$> Counter (item_col df1)).

Definition edge_list (df1 : DataFrame) : list (entity * entity * nat) :=
  (λ e : row * nat, (e.1.1, e.1.2, e.2)) <$> Counter df1.

Definition materialize (df1 : DataFrame) : BipartiteCommunity :=
  {| _df := df1;
     _G := add_weighted_edges_from (edge_list df1) (add_nodes_from (node_list df1) empty_graph);
     user_degree := Counter (user_col df1);
     item_degree := Counter (item_col df1) |}.

Definition illegal_settings : exn := Exception "See docstring: Illegal settings".

(** ** The one-mode projection

    [networkx.algorithms.bipartite.weighted_projected_graph(B, nodes)] for an
    undirected [B] and [ratio=False], as the library implements it: the
    projected graph receives every node of [nodes] with its attributes, the
    call is refused when [len(B) - len(nodes) < 1] (a check of the current
    releases of the library), and then every [u] of
    [nodes] is joined to every other node [v] reachable in two steps, with
    weight [len(set(B[u]) & set(B[v]))].  The library raises [KeyError] on a
    node of [nodes] that [B] lacks; the class passes values of a column of
    [self._df], which are nodes of [self._G]. *)
Definition node_attrs (B : Graph) (n : entity) : option node_data :=
  default None (g_node B !! n).

Definition two_step_neighbors (B : Graph) (u : entity) : gset entity :=
  ⋃ (neighbors B <$> elements (neighbors B u)) ∖ {[u]}.

Definition project_node (B : Graph) (u : entity) (G : Graph) : Graph :=
  let unbrs := neighbors B u in
  let nbrs2 := two_step_neighbors B u in
  set_fold (λ v G,
              let vnbrs := neighbors B v in
              let common := unbrs ∩ vnbrs in
              let weight := size common in
              add_edge u v weight G) G nbrs2.

Definition weighted_projected_graph (B : Graph) (nodes : gset entity) : result Graph :=
  let G0 := set_fold (λ n G, add_node n (node_attrs B n) G) empty_graph nodes in
  let n_top := (Z.of_nat (number_of_nodes B) - Z.of_nat (size nodes))%Z in
  if (n_top <? 1)%Z then Raise NetworkXAlgorithmError
  else Ok (set_fold (project_node B) G0 nodes).

(** [set(self._df[self.item_key])] and [set(self._df[self.user_key])] *)
Definition item_set (self : BipartiteCommunity) : gset entity :=
  list_to_set (item_col (_df self)).
Definition user_set (self : BipartiteCommunity) : gset entity :=
  list_to_set (user_col (_df self)).

(** The bodies of [project_onto_items] and [project_onto_users], without the
    cache and the timing output. *)
Definition projection_onto_items (self : BipartiteCommunity) : result Graph :=
  weighted_projected_graph (_G self) (item_set self).
Definition projection_onto_users (self : BipartiteCommunity) : result Graph :=
  weighted_projected_graph (_G self) (user_set self).

(** ** Objects, caches and the random state

    Python objects have an identity; [functools.cache] returns the very
    object it stored.  An object is modelled by its identity and its value,
    and a program by a function of the world: the allocation counter, the
    state of the random generator that [best_partition] draws from, and the
    four caches that the [@cache] decorators attach to the methods. *)
Record obj (A : Type) : Type := { oid : nat; oval : A }.
Arguments oid {A} o.
Arguments oval {A} o.

Section Pipeline.
(** Resolutions are floats compared by [==]; scores are floats. *)
Context {Res : Type} `{Countable Res}.
Context {Score Rng : Type}.
(** The default [resolution=1.0]. *)
Variable default_resolution : Res.
(** [community_louvain.best_partition(graph, weight="weight",
    resolution=r)], which draws from the global random state. *)
Variable best_partition : Graph → Res → Rng → result (gmap entity nat) * Rng.
(** [community.community_louvain.modularity(partition, graph)] *)
Variable modularity : gmap entity nat → Graph → result Score.

(** How a call passes [resolution]: [functools.cache] keys on the
    positional arguments and on the keyword arguments as they were
    written, so the three forms give three different keys. *)
Inductive res_arg : Type :=
  | Omitted
  | Positional (r : Res)
  | Keyword (r : Res).

#[global] Instance res_arg_eq_dec : EqDecision res_arg.
Proof. solve_decision. Defined.

#[global] Instance res_arg_countable : Countable res_arg.
Proof.
  refine (inj_countable'
            (λ a, match a with
                  | Omitted => inl ()
                  | Positional r => inr (inl r)
                  | Keyword r => inr (inr r)
                  end)
            (λ x, match x with
                  | inl _ => Omitted
                  | inr (inl r) => Positional r
                  | inr (inr r) => Keyword r
                  end) _).
  by intros [].
Defined.

(** The value the parameter [resolution] is bound to in the body. *)
Definition resolution_of (a : res_arg) : Res :=
  match a with
  | Omitted => default_resolution
  | Positional r | Keyword r => r
  end.

Record world : Type := {
  next_id : nat;
  rng : Rng;
  cache_project_onto_items : gmap nat (obj Graph);
  cache_project_onto_users : gmap nat (obj Graph);
  cache_partition_items : gmap (nat * res_arg) (obj (gmap entity nat));
  cache_partition_users : gmap (nat * res_arg) (obj (gmap entity nat))
}.

Definition initial_world (seed : Rng) : world :=
  {| next_id := 0; rng := seed;
     cache_project_onto_items := ∅; cache_project_onto_users := ∅;
     cache_partition_items := ∅; cache_partition_users := ∅ |}.

Definition set_cache_project_onto_items (c : gmap nat (obj Graph)) (w : world) : world :=
  {| next_id := next_id w; rng := rng w;
     cache_project_onto_items := c;
     cache_project_onto_users := cache_project_onto_users w;
     cache_partition_items := cache_partition_items w;
     cache_partition_users := cache_partition_users w |}.

Definition set_cache_project_onto_users (c : gmap nat (obj Graph)) (w : world) : world :=
  {| next_id := next_id w; rng := rng w;
     cache_project_onto_items := cache_project_onto_items w;
     cache_project_onto_users := c;
     cache_partition_items := cache_partition_items w;
     cache_partition_users := cache_partition_users w |}.

Definition set_cache_partition_items
    (c : gmap (nat * res_arg) (obj (gmap entity nat))) (w : world) : world :=
  {| next_id := next_id w; rng := rng w;
     cache_project_onto_items := cache_project_onto_items w;
     cache_project_onto_users := cache_project_onto_users w;
     cache_partition_items := c;
     cache_partition_users := cache_partition_users w |}.

Definition set_cache_partition_users
    (c : gmap (nat * res_arg) (obj (gmap entity nat))) (w : world) : world :=
  {| next_id := next_id w; rng := rng w;
     cache_project_onto_items := cache_project_onto_items w;
     cache_project_onto_users := cache_project_onto_users w;
     cache_partition_items := cache_partition_items w;
     cache_partition_users := c |}.

Definition set_rng (r : Rng) (w : world) : world :=
  {| next_id := next_id w; rng := r;
     cache_project_onto_items := cache_project_onto_items w;
     cache_project_onto_users := cache_project_onto_users w;
     cache_partition_items := cache_partition_items w;
     cache_partition_users := cache_partition_users w |}.

Definition set_next_id (n : nat) (w : world) : world :=
  {| next_id := n; rng := rng w;
     cache_project_onto_items := cache_project_onto_items w;
     cache_project_onto_users := cache_project_onto_users w;
     cache_partition_items := cache_partition_items w;
     cache_partition_users := cache_partition_users w |}.

(** Computations that read and write the world and may raise. *)
Definition M (A : Type) : Type := world → result A * world.

Definition ret {A} (a : A) : M A := λ w, (Ok a, w).
Definition raise {A} (e : exn) : M A := λ w, (Raise e, w).
Definition bind {A B} (m : M A) (k : A → M B) : M B :=
  λ w, match m w with
       | (Ok a, w') => k a w'
       | (Raise e, w') => (Raise e, w')
       end.
Definition lift {A} (r : result A) : M A := λ w, (r, w).

(** A new object: a fresh identity for the value. *)
Definition alloc {A} (a : A) : M (obj A) :=
  λ w, (Ok {| oid := next_id w; oval := a |}, set_next_id (S (next_id w)) w).

(** [@functools.cache]: a hit returns the stored object and runs nothing;
    a miss runs the body and stores what it returns; an exception stores
    nothing. *)
Definition cached {K A} `{Countable K}
    (get : world → gmap K A) (set : gmap K A → world → world)
    (key : K) (body : M A) : M A :=
  λ w, match get w !! key with
       | Some v => (Ok v, w)
       | None =>
           match body w with
           | (Ok v, w') => (Ok v, set (<[key := v]> (get w')) w')
           | (Raise e, w') => (Raise e, w')
           end
       end.

Notation "'let!' x ':=' m 'in' k" := (bind m (λ x, k))
  (at level 10, x name, m at level 100, k at level 200).

(** ** The memoised methods *)

(** The constructor call: the attributes of [__init__] under a fresh
    identity. *)
Definition instantiate (df : DataFrame) (min_user_degree min_item_degree : option (option Z))
  : M (obj BipartiteCommunity) :=
  let! self := lift (construct df min_user_degree min_item_degree) in
  alloc self.

Definition project_onto_items (self : obj BipartiteCommunity) : M (obj Graph) :=
  cached cache_project_onto_items set_cache_project_onto_items (oid self)
    (let! projected := lift (projection_onto_items (oval self)) in
     alloc projected).

Definition project_onto_users (self : obj BipartiteCommunity) : M (obj Graph) :=
  cached cache_project_onto_users set_cache_project_onto_users (oid self)
    (let! projected := lift (projection_onto_users (oval self)) in
     alloc projected).

(** The library call, which advances the random state and returns a new
    dict. *)
Definition run_best_partition (projected : Graph) (resolution : Res)
  : M (obj (gmap entity nat)) :=
  λ w, let '(p, rng') := best_partition projected resolution (rng w) in
       match p with
       | Ok partition => alloc partition (set_rng rng' w)
       | Raise e => (Raise e, set_rng rng' w)
       end.

Definition partition_items (self : obj BipartiteCommunity) (resolution : res_arg)
  : M (obj (gmap entity nat)) :=
  cached cache_partition_items set_cache_partition_items (oid self, resolution)
    (let! projected := project_onto_items self in
     let! partition := run_best_partition (oval projected) (resolution_of resolution) in
     ret partition).

Definition partition_users (self : obj BipartiteCommunity) (resolution : res_arg)
  : M (obj (gmap entity nat)) :=
  cached cache_partition_users set_cache_partition_users (oid self, resolution)
    (let! projected := project_onto_users self in
     let! partition := run_best_partition (oval projected) (resolution_of resolution) in
     ret partition).

(** ** [optimize_modularity] *)

(** The debug report reads [counts[len(counts)//2]] of the sorted
    community sizes, which raises [IndexError] on an empty partition. *)
Definition median_community_size (partition : gmap entity nat) : result nat :=
  let community_sizes := Counter (map_to_list partition).*2 in
  let counts := merge_sort (≤) (community_sizes.*2) in
  match counts !! (length counts / 2) with
  | Some c => Ok c
  | None => Raise IndexError
  end.

(** [for res in resolution: ...] *)
Fixpoint resolution_loop (bc : obj BipartiteCommunity) (projected : obj Graph)
    (min_deg : Z) (debug : bool) (resolution : list Res)
    (data : gmap (Z * Res) Score) : M (gmap (Z * Res) Score) :=
  match resolution with
  | [] => ret data
  | res :: rest =>
      let! partition := partition_items bc (Keyword res) in
      let! curr_mod := lift (modularity (oval partition) (oval projected)) in
      let data := <[(min_deg, res) := curr_mod]> data in
      let! _ := (if debug then lift (median_community_size (oval partition)) else ret 0) in
      resolution_loop bc projected min_deg debug rest data
  end.

(** [for min_deg in min_item_degree: ...] *)
Fixpoint threshold_loop (df : DataFrame) (debug : bool) (min_item_degree : list Z)
    (resolution : list Res) (data : gmap (Z * Res) Score) : M (gmap (Z * Res) Score) :=
  match min_item_degree with
  | [] => ret data
  | min_deg :: rest =>
      let! bc := instantiate df None (Some (Some min_deg)) in
      let! projected := project_onto_items bc in
      let! data := resolution_loop bc projected min_deg debug resolution data in
      threshold_loop df debug rest resolution data
  end.

Definition optimize_modularity (df : DataFrame) (min_item_degree : list Z)
    (resolution : list Res) (debug : bool) : M (gmap (Z * Res) Score) :=
  threshold_loop df debug min_item_degree resolution ∅.
End Pipeline.

Definition u1 : entity := EStr "u1".
Definition u2 : entity := EStr "u2".
Definition i1 : entity := EStr "i1".
Definition i2 : entity := EStr "i2".
Definition scenario_edges : DataFrame := [(u1, i1); (u1, i1); (u1, i2); (u2, i1)].

(** Tables whose two columns share identifiers. *)
Definition shared_ids : DataFrame := [(EInt 1, EInt 2); (EInt 2, EInt 1)].
Definition shared_ids_twice : DataFrame :=
  [(EInt 1, EInt 2); (EInt 1, EInt 2); (EInt 2, EInt 1)].
Definition crossed_ids : DataFrame :=
  [(EStr "a", EStr "p"); (EStr "b", EStr "q"); (EStr "p", EStr "z"); (EStr "q", EStr "z")].

(** The opposite-side neighbours the rows give an entity: the users of an
    item and the items of a user. *)
Definition users_of (df : DataFrame) (i : entity) : gset entity :=
  list_to_set (filter (λ r, r.2 = i) df).*1.
Definition items_of (df : DataFrame) (u : entity) : gset entity :=
  list_to_set (filter (λ r, r.1 = u) df).*2.

(** Stand-ins for the two library functions in examples, with integers for
    the float resolutions (10 for 1.0) and for the scores: the clustering
    puts every node in the community numbered by the random state and
    advances it, so that two runs never agree; the score is the number of
    nodes of the partition. *)
Definition sample_best_partition (g : Graph) (resolution : Z) (seed : nat)
  : result (gmap entity nat) * nat :=
  (Ok (const seed <$> g_node g), S seed).
Definition sample_modularity (partition : gmap entity nat) (g : Graph) : result nat :=
  Ok (size partition).

(** An instance with identity 0 in a world where nothing is cached yet. *)
Definition sample_instance : obj BipartiteCommunity :=
  {| oid := 0; oval := materialize scenario_edges |}.
Definition sample_world : @world Z _ _ nat :=
  set_next_id 1 (initial_world 0).

Definition ok_or_none {A} (r : result A) : option A :=
  match r with Ok a => Some a | Raise _ => None end.
Definition is_ok {A} (r : result A) : bool :=
  match r with Ok _ => true | Raise _ => false end.

(** ** Notions for the graph facts *)

(** A key with an adjacency dict is a node: networkx creates the two dicts
    of a node together. *)
Definition wf_graph (G : Graph) : Prop :=
  ∀ n, g_node G !! n = None → g_adj G !! n = None.

(** The edge tuple [e] joins [x] and [y], in either direction. *)
Definition joins (x y : entity) (e : entity * entity * nat) : Prop :=
  (e.1.1 = x ∧ e.1.2 = y) ∨ (e.1.1 = y ∧ e.1.2 = x).

#[global] Instance joins_dec x y e : Decision (joins x y e).
Proof. unfold joins. apply _. Defined.

(** ** Notions for the grid search *)
Section GridNotions.
Context {Res : Type} `{Countable Res} {Score Rng : Type}.
Variable best_partition : Graph → Res → Rng → result (gmap entity nat) * Rng.
Variable modularity : gmap entity nat → Graph → result Score.

(** No cache of the item methods has an entry under an identity that is
    not allocated yet. *)
Definition fresh (w : @world Res _ _ Rng) : Prop :=
  (∀ k o, cache_project_onto_items w !! k = Some o → k < next_id w)
  ∧ (∀ k a o, cache_partition_items w !! (k, a) = Some o → k < next_id w).

(** A partition of [g] on which the body of the inner loop raises nothing:
    [modularity] returns, and so does the debug report when it is on. *)
Definition scored (debug : bool) (g : Graph) (partition : gmap entity nat) : Prop :=
  is_ok (modularity partition g)
  ∧ (debug = true → is_ok (median_community_size partition)).

(** What the inner loop relies on and keeps: the projection of [self] is
    cached, [self] is allocated, no cache entry is ahead of the allocator,
    and every cached partition of [self] is scored. *)
Definition loop_inv (self : obj BipartiteCommunity) (projected : obj Graph) (debug : bool)
    (w : @world Res _ _ Rng) : Prop :=
  cache_project_onto_items w !! oid self = Some projected
  ∧ oid self < next_id w
  ∧ fresh w
  ∧ ∀ a p, cache_partition_items w !! (oid self, a) = Some p →
           scored debug (oval projected) (oval p).

(** The iteration of the outer loop for [min_deg] raises nothing: the
    projection of the filtered graph returns, and on it the clustering
    returns a scored partition for every resolution of the grid, whatever
    the random state. *)
Definition threshold_completes (df : DataFrame) (debug : bool) (resolution : list Res)
    (min_deg : Z) : Prop :=
  ∃ g, projection_onto_items (materialize (select_rows df None (Some min_deg))) = Ok g
       ∧ ∀ res seed, res ∈ resolution →
           ∃ partition, (best_partition g res seed).1 = Ok partition
                        ∧ scored debug g partition.

(** A score of the projected graph of threshold [min_deg]. *)
Definition score_of (df : DataFrame) (min_deg : Z) (s : Score) : Prop :=
  ∃ g partition,
    projection_onto_items (materialize (select_rows df None (Some min_deg))) = Ok g
    ∧ modularity partition g = Ok s.
End GridNotions.

(** ** [label_df_partition] and [plot_partition_distribution]

    [label_df_partition] keeps the rows whose value in the column [col_name]
    is a key of the partition and adds the column of their communities.
    [key] reads the column, the result pairs each kept row with its
    community, and [None] stands for the [KeyError] of [partition[x]].
    [inplace] only decides whether [df] is copied first. *)
Definition label_df_partition (key : row → entity) (df : DataFrame)
    (partition : gmap entity nat) (inplace : bool) : option (list (row * nat)) :=
  let df0 := if inplace then df else df in
  let df1 := filter (λ r, key r ∈ dom partition) df0 in
  community ← mapM (λ x, partition !! x) (key <$> df1);
  Some (zip df1 community).

(** [Counter(partition.values())], which both the plot and the debug report
    of the grid search compute: the size of every community. *)
Definition community_sizes (partition : gmap entity nat) : list (nat * nat) :=
  Counter (map_to_list partition).*2.

(** The two sequences [plot_partition_distribution] passes to [plt.bar]. *)
Definition bar_chart (partition : gmap entity nat) : list nat * list nat :=
  ((community_sizes partition).*1, (community_sizes partition).*2).

(** [num_nodes] and [unique_communities] of the debug report. *)
Definition num_nodes (partition : gmap entity nat) : nat :=
  counter_total (community_sizes partition).
Definition unique_communities (partition : gmap entity nat) : nat :=
  counter_len (community_sizes partition).

(** A weighted graph without self-loop, with a symmetric adjacency and
    positive weights. *)
Definition simple_weighted (P : Graph) : Prop :=
  ∀ x y, edge_weight P x y = edge_weight P y x
         ∧ edge_weight P x x = None
         ∧ ∀ w, edge_weight P x y = Some w → 1 ≤ w.

(** ** Sequences of method calls

    A program that calls the memoised methods of any instances in any order,
    discarding the results: what it leaves in the world. *)
Section Calls.
Context {Res : Type} `{Countable Res} {Rng : Type}.
Variable default_resolution : Res.
Variable best_partition : Graph → Res → Rng → result (gmap entity nat) * Rng.

Inductive method_call : Type :=
  | CallProjectOntoItems (self : obj BipartiteCommunity)
  | CallProjectOntoUsers (self : obj BipartiteCommunity)
  | CallPartitionItems (self : obj BipartiteCommunity) (resolution : @res_arg Res)
  | CallPartitionUsers (self : obj BipartiteCommunity) (resolution : @res_arg Res).

Definition run_call (c : method_call) (w : @world Res _ _ Rng) : @world Res _ _ Rng :=
  match c with
  | CallProjectOntoItems self => (project_onto_items self w).2
  | CallProjectOntoUsers self => (project_onto_users self w).2
  | CallPartitionItems self resolution =>
      (partition_items default_resolution best_partition self resolution w).2
  | CallPartitionUsers self resolution =>
      (partition_users default_resolution best_partition self resolution w).2
  end.

(** The instance a call is made on. *)
Definition call_instance (c : method_call) : obj BipartiteCommunity :=
  match c with
  | CallProjectOntoItems self | CallProjectOntoUsers self
  | CallPartitionItems self _ | CallPartitionUsers self _ => self
  end.

Definition run_calls (cs : list method_call) (w : @world Res _ _ Rng)
  : @world Res _ _ Rng :=
  foldl (λ w c, run_call c w) w cs.

(** Every entry of the four caches of [w] is an entry of [w']. *)
Definition caches_kept (w w' : @world Res _ _ Rng) : Prop :=
  cache_project_onto_items w ⊆ cache_project_onto_items w'
  ∧ cache_project_onto_users w ⊆ cache_project_onto_users w'
  ∧ cache_partition_items w ⊆ cache_partition_items w'
  ∧ cache_partition_users w ⊆ cache_partition_users w'.
End Calls.

(** * Properties *)

(** ** Counters *)
Section CounterFacts.
Context {K : Type} `{EqDecision K}.
Implicit Types (c : list (K * nat)) (xs : list K) (k : K).

Lemma counter_get_add k k' c :
  counter_get (counter_add k c) k'
  = if decide (k' = k) then S (counter_get c k') else counter_get c k'.
Proof.
  induction c as [|[k0 n] c IH]; simpl.
  - by repeat case_decide.
  - repeat (case_decide; simpl; subst); try done; by rewrite IH, ?decide_True, ?decide_False.
Qed.

Lemma counter_total_add k c : counter_total (counter_add k c) = S (counter_total c).
Proof.
  unfold counter_total. induction c as [|[k0 n] c IH]; [done|].
  cbn [counter_add]. case_decide; rewrite !fmap_cons; cbn [sum_list sum_list_with snd];
    rewrite ?IH; unfold id; lia.
Qed.

Lemma counter_keys_add k c :
  (counter_add k c).*1 = if decide (k ∈ c.*1) then c.*1 else c.*1 ++ [k].
Proof.
  induction c as [|[k0 n] c IH]; cbn [counter_add].
  - rewrite decide_False; [done|]. apply not_elem_of_nil.
  - destruct (decide (k = k0)) as [->|Hk]; rewrite !fmap_cons; cbn [fst].
    + rewrite decide_True; [done|]. apply list_elem_of_here.
    + rewrite IH. destruct (decide (k ∈ c.*1)) as [Hin|Hin].
      * rewrite decide_True; [done|]. by apply list_elem_of_further.
      * rewrite decide_False; [done|]. rewrite elem_of_cons. tauto.
Qed.

Lemma Counter_snoc xs x : Counter (xs ++ [x]) = counter_add x (Counter xs).
Proof. unfold Counter. by rewrite foldl_app. Qed.

Lemma occurrences_snoc k xs x :
  occurrences k (xs ++ [x]) = occurrences k xs + (if decide (x = k) then 1 else 0).
Proof.
  unfold occurrences. rewrite filter_app, length_app. f_equal.
  rewrite filter_cons, filter_nil. by case_decide.
Qed.

Lemma occurrences_cons k xs x :
  occurrences k (x :: xs) = (if decide (x = k) then 1 else 0) + occurrences k xs.
Proof. unfold occurrences. rewrite filter_cons. by case_decide. Qed.

Lemma occurrences_pos k xs : k ∈ xs ↔ 0 < occurrences k xs.
Proof.
  induction xs as [|x xs IH]; [rewrite elem_of_nil; cbn; lia|].
  rewrite occurrences_cons, elem_of_cons. case_decide; subst; [|rewrite IH].
  - split; [lia|by left].
  - split; [intros [?|?]; [congruence|lia]|intros; right; lia].
Qed.

Lemma counter_get_Counter xs k : counter_get (Counter xs) k = occurrences k xs.
Proof.
  induction xs as [|x xs IH] using rev_ind; [done|].
  rewrite Counter_snoc, counter_get_add, occurrences_snoc, IH.
  repeat case_decide; subst; try done; lia.
Qed.

Lemma counter_total_Counter xs : counter_total (Counter xs) = length xs.
Proof.
  induction xs as [|x xs IH] using rev_ind; [done|].
  rewrite Counter_snoc, counter_total_add, IH, length_app. simpl. lia.
Qed.

Lemma Counter_keys_NoDup xs : NoDup (Counter xs).*1.
Proof.
  induction xs as [|x xs IH] using rev_ind; [constructor|].
  rewrite Counter_snoc, counter_keys_add. case_decide as Hx; [done|].
  apply NoDup_app. split_and!; [done| |apply NoDup_singleton].
  intros y Hy ->%list_elem_of_singleton. done.
Qed.

Lemma elem_of_Counter_keys xs k : k ∈ (Counter xs).*1 ↔ k ∈ xs.
Proof.
  induction xs as [|x xs IH] using rev_ind; [done|].
  rewrite Counter_snoc, counter_keys_add, elem_of_app, list_elem_of_singleton, <- IH.
  case_decide as Hx; [|rewrite elem_of_app, list_elem_of_singleton; tauto].
  split; [tauto|]. intros [?| ->]; done.
Qed.

Lemma counter_get_lookup c k n :
  NoDup c.*1 → (k, n) ∈ c ↔ k ∈ c.*1 ∧ n = counter_get c k.
Proof.
  induction c as [|[k0 n0] c IH]; simpl; intros Hnd.
  - rewrite !elem_of_nil. tauto.
  - apply NoDup_cons in Hnd as [Hk0 Hnd]. rewrite !elem_of_cons, (IH Hnd).
    case_decide; subst.
    + split.
      * intros [[= ->]|[? _]]; [tauto|done].
      * intros [_ ->]. by left.
    + split.
      * intros [[= -> ->]|[? ?]]; [done|tauto].
      * intros [[?|?] ?]; [done|tauto].
Qed.

Lemma elem_of_Counter xs k n :
  (k, n) ∈ Counter xs ↔ k ∈ xs ∧ n = occurrences k xs.
Proof.
  rewrite counter_get_lookup by apply Counter_keys_NoDup.
  by rewrite elem_of_Counter_keys, counter_get_Counter.
Qed.
End CounterFacts.

(** ** Construction *)

Lemma filter_ext_in {A} (P Q : A → Prop) `{∀ x, Decision (P x)} `{∀ x, Decision (Q x)}
    (l : list A) :
  (∀ x, x ∈ l → P x ↔ Q x) → filter P l = filter Q l.
Proof.
  induction l as [|x l IH]; intros HPQ; [done|].
  rewrite !filter_cons.
  assert (P x ↔ Q x) as Hx by (apply HPQ; left).
  rewrite IH by (intros y Hy; apply HPQ; by right).
  destruct (decide (P x)), (decide (Q x)); tauto.
Qed.

Lemma elem_of_index_at_least (column : list entity) (t : Z) (k : entity) :
  k ∈ index_at_least (value_counts column) t
  ↔ k ∈ column ∧ (t ≤ Z.of_nat (occurrences k column))%Z.
Proof.
  unfold index_at_least, value_counts. rewrite list_elem_of_fmap. split.
  - intros [[k' n] [-> [Hn Hin]%list_elem_of_filter]]. cbn [fst snd] in *.
    apply elem_of_Counter in Hin as [? ->]. done.
  - intros [Hk Ht]. exists (k, occurrences k column). split; [done|].
    apply list_elem_of_filter. split; [done|]. by apply elem_of_Counter.
Qed.

(** The filter keeps exactly the rows whose key is frequent enough in the
    unfiltered column. *)
Lemma filter_min_degree_spec (key : row → entity) (t : Z) (df : DataFrame) :
  filter_min_degree key t df
  = filter (λ r, (t ≤ Z.of_nat (occurrences (key r) (key <$> df)))%Z) df.
Proof.
  unfold filter_min_degree. apply filter_ext_in. intros r Hr.
  rewrite elem_of_index_at_least. split; [tauto|]. intros Ht. split; [|done].
  by apply list_elem_of_fmap_2.
Qed.

Lemma filter_min_degree_nonpos (key : row → entity) (t : Z) (df : DataFrame) :
  (t ≤ 0)%Z → filter_min_degree key t df = df.
Proof.
  intros Ht. rewrite filter_min_degree_spec.
  generalize (key <$> df). intros column.
  induction df as [|r df IH]; [done|].
  rewrite filter_cons_True by lia. by rewrite IH.
Qed.

Lemma init_unfold (df : DataFrame) (mu mi : option Z) :
  __init__ df mu mi
  = if truthy mu && truthy mi then Aborted illegal_settings df empty_graph
    else Initialized (materialize (select_rows df mu mi)).
Proof. reflexivity. Qed.

Lemma new_unfold (df : DataFrame) (mu mi : option Z) :
  new df mu mi
  = if truthy mu && truthy mi then Raise illegal_settings
    else Ok (materialize (select_rows df mu mi)).
Proof. unfold new. rewrite init_unfold. by destruct (truthy mu && truthy mi). Qed.

Lemma truthy_Some (t : Z) : truthy (Some t) = bool_decide (t ≠ 0%Z).
Proof.
  unfold truthy. destruct (Z.eqb_spec t 0) as [->|Hne]; cbn [negb].
  - symmetry. apply bool_decide_eq_false. tauto.
  - symmetry. by apply bool_decide_eq_true.
Qed.

Lemma new_filtered_shape (df : DataFrame) (mu mi : option Z) (bc : BipartiteCommunity) :
  new df mu mi = Ok bc → bc = materialize (select_rows df mu mi).
Proof. rewrite new_unfold. destruct (truthy mu && truthy mi); congruence. Qed.

(** C1 (amended): when both degree thresholds are non-zero integers,
    [__init__] raises the "Illegal settings" exception while [self._G] is
    still the empty graph and [self._df] the unfiltered table, no degree
    table or node having been created, and the constructor call yields the
    exception and no instance. *)
Theorem both_thresholds_raise (df : DataFrame) (u i : Z) :
  u ≠ 0%Z → i ≠ 0%Z →
  __init__ df (Some u) (Some i) = Aborted illegal_settings df empty_graph
  ∧ new df (Some u) (Some i) = Raise illegal_settings
  ∧ construct df (Some (Some u)) (Some (Some i)) = Raise illegal_settings.
Proof.
  intros Hu Hi.
  assert (truthy (Some u) && truthy (Some i) = true) as Hboth.
  { rewrite !truthy_Some, !bool_decide_eq_true_2; done. }
  change (construct df (Some (Some u)) (Some (Some i))) with (new df (Some u) (Some i)).
  rewrite new_unfold, init_unfold, Hboth. done.
Qed.

Lemma both_thresholds_raise_witness :
  2%Z ≠ 0%Z ∧ 3%Z ≠ 0%Z
  ∧ __init__ scenario_edges (Some 2%Z) (Some 3%Z)
    = Aborted illegal_settings scenario_edges empty_graph
  ∧ new scenario_edges (Some 2%Z) (Some 3%Z) = Raise illegal_settings
  ∧ construct scenario_edges (Some (Some 2%Z)) (Some (Some 3%Z)) = Raise illegal_settings.
Proof.
  split; [lia|]. split; [lia|].
  apply (both_thresholds_raise scenario_edges 2 3); lia.
Defined.

(** C1 as stated fails: with both thresholds supplied, one of them 0, the
    constructor raises nothing and builds the graph of the item filter. *)
Lemma both_thresholds_supplied_builds :
  new scenario_edges (Some 0%Z) (Some 2%Z)
  = Ok (materialize [(u1, i1); (u1, i1); (u2, i1)]).
Proof. rewrite new_unfold. cbn [truthy Z.eqb negb andb]. do 2 f_equal. Qed.

(** C10: a threshold equal to 0 is treated as [None]: the constructor does
    exactly what it does without that threshold, whatever the other one is,
    it never raises, and alone it filters nothing. *)
Theorem zero_threshold_is_absent (df : DataFrame) (other : option Z) :
  __init__ df (Some 0%Z) other = __init__ df None other
  ∧ __init__ df other (Some 0%Z) = __init__ df other None
  ∧ new df (Some 0%Z) other = Ok (materialize (select_rows df None other))
  ∧ new df other (Some 0%Z) = Ok (materialize (select_rows df other None))
  ∧ new df (Some 0%Z) None = Ok (materialize df)
  ∧ new df None (Some 0%Z) = Ok (materialize df).
Proof.
  split_and!; try reflexivity.
  rewrite new_unfold. unfold select_rows. cbn [truthy Z.eqb negb andb].
  by rewrite andb_false_r.
Qed.

(** C4: with a single threshold the retained table consists of exactly the
    rows whose filtered-side entity occurs at least [t] times in the
    unfiltered column, whatever the degree of the other side becomes; on the
    example, [min_item_degree=2] drops [i2] and keeps [u2] with degree 1. *)
Theorem single_pass_filter :
  (∀ (df : DataFrame) (t : Z),
      new df (Some t) None
      = Ok (materialize
              (filter (λ r, (t ≤ Z.of_nat (occurrences r.1 (user_col df)))%Z) df)))
  ∧ (∀ (df : DataFrame) (t : Z),
      new df None (Some t)
      = Ok (materialize
              (filter (λ r, (t ≤ Z.of_nat (occurrences r.2 (item_col df)))%Z) df)))
  ∧ _df (materialize (select_rows scenario_edges None (Some 2%Z)))
    = [(u1, i1); (u1, i1); (u2, i1)]
  ∧ user_degree (materialize (select_rows scenario_edges None (Some 2%Z)))
    = [(u1, 2); (u2, 1)].
Proof.
  split_and!; [| |by vm_compute..].
  - intros df t. rewrite new_unfold. rewrite andb_false_r.
    f_equal. f_equal. unfold select_rows, user_col.
    rewrite truthy_Some. case_bool_decide as Ht.
    + apply filter_min_degree_spec.
    + assert (t = 0%Z) as -> by lia. cbn [truthy].
      by rewrite <- (filter_min_degree_spec fst), filter_min_degree_nonpos.
  - intros df t. rewrite new_unfold. change (truthy None) with false. cbn [andb].
    f_equal. f_equal. unfold item_col.
    change (select_rows df None (Some t))
      with (if truthy (Some t) then filter_min_degree snd t df else df).
    rewrite truthy_Some. case_bool_decide as Ht.
    + apply filter_min_degree_spec.
    + assert (t = 0%Z) as -> by lia.
      by rewrite <- (filter_min_degree_spec snd), filter_min_degree_nonpos.
Qed.

(** C5: in every instance the constructor returns, the user degrees and the
    item degrees both sum to the number of rows of the filtered table. *)
Theorem degree_sum_invariant (df : DataFrame) (mu mi : option Z) (bc : BipartiteCommunity) :
  new df mu mi = Ok bc →
  counter_total (user_degree bc) = counter_total (item_degree bc)
  ∧ counter_total (user_degree bc) = length (_df bc)
  ∧ counter_total (item_degree bc) = length (_df bc).
Proof.
  intros ->%new_filtered_shape. cbn [user_degree item_degree _df materialize].
  unfold user_col, item_col. rewrite !counter_total_Counter, !length_fmap. done.
Qed.

Lemma degree_sum_invariant_witness :
  new scenario_edges None (Some 2%Z) = Ok (materialize [(u1, i1); (u1, i1); (u2, i1)])
  ∧ counter_total (user_degree (materialize [(u1, i1); (u1, i1); (u2, i1)])) = 3
  ∧ counter_total (item_degree (materialize [(u1, i1); (u1, i1); (u2, i1)])) = 3.
Proof.
  assert (new scenario_edges None (Some 2%Z)
          = Ok (materialize [(u1, i1); (u1, i1); (u2, i1)])) as Hnew
    by (rewrite new_unfold; cbn [truthy andb]; do 2 f_equal).
  split; [exact Hnew|].
  destruct (degree_sum_invariant _ _ _ _ Hnew) as (_ & Hu & Hi).
  split; [exact Hu | exact Hi].
Defined.

(** C2: leaving [min_item_degree] out is passing 10.  When
    [min_user_degree] is left out, [None] or 0, the item filter runs with
    threshold 10, so every retained row has an item that occurs at least 10
    times in the unfiltered table; with a positive [min_user_degree] the
    constructor raises. *)
Theorem default_item_threshold (df : DataFrame) :
  (∀ mu, construct df mu None = new df (default None mu) (Some 10%Z))
  ∧ construct df None None = Ok (materialize (filter_min_degree snd 10 df))
  ∧ construct df (Some None) None = Ok (materialize (filter_min_degree snd 10 df))
  ∧ construct df (Some (Some 0%Z)) None = Ok (materialize (filter_min_degree snd 10 df))
  ∧ filter_min_degree snd 10 df = filter (λ r, 10 ≤ occurrences r.2 (item_col df)) df
  ∧ Forall (λ r, 10 ≤ occurrences r.2 (item_col df)) (filter_min_degree snd 10 df)
  ∧ (∀ p : positive, construct df (Some (Some (Z.pos p))) None = Raise illegal_settings).
Proof.
  assert (filter_min_degree snd 10 df
          = filter (λ r, 10 ≤ occurrences r.2 (item_col df)) df) as Hspec.
  { rewrite filter_min_degree_spec. apply filter_ext_in. intros r _.
    unfold item_col. lia. }
  split_and!; try done.
  rewrite Hspec. apply Forall_forall. intros r Hr.
  by apply list_elem_of_filter in Hr as [? _].
Qed.

Lemma result_match {A} (r : result A) (P : A → Prop) :
  match r with Ok a => P a | Raise _ => False end → ∃ a, r = Ok a ∧ P a.
Proof. destruct r; [eauto|done]. Qed.

(** The first and the third scenario: degrees, weights and the projection
    onto the users of the unfiltered example. *)
Example scenario_unfiltered :
  user_degree (materialize scenario_edges) = [(u1, 3); (u2, 1)]
  ∧ item_degree (materialize scenario_edges) = [(i1, 3); (i2, 1)]
  ∧ edge_weight (_G (materialize scenario_edges)) u1 i1 = Some 2
  ∧ edge_weight (_G (materialize scenario_edges)) u1 i2 = Some 1
  ∧ edge_weight (_G (materialize scenario_edges)) u2 i1 = Some 1
  ∧ edge_weight (_G (materialize scenario_edges)) u2 i2 = None
  ∧ describe_bipartite (materialize scenario_edges) = Ok ()
  ∧ (∃ g, projection_onto_users (materialize scenario_edges) = Ok g
          ∧ edge_weight g u1 u2 = Some 1 ∧ edge_weight g u2 u1 = Some 1).
Proof.
  split_and!; try (vm_compute; reflexivity).
  apply result_match. vm_compute. done.
Qed.

(** ** Identifiers that occur in both columns

    [__init__] uses the raw column values as node keys of one [nx.Graph], so
    a value that occurs in both columns is one node, and a pair [(x, y)]
    meets the pair [(y, x)] on the same edge. *)

(** C6 (the code departs from the claim): user 1 rates item 2 and user 2
    rates item 1.  There are two users and two items, the graph has two
    nodes instead of four, and the assertion of [describe_bipartite] on the
    node count fails. *)
Theorem node_count_shared_ids :
  new shared_ids None None = Ok (materialize shared_ids)
  ∧ _df (materialize shared_ids) = shared_ids
  ∧ counter_len (user_degree (materialize shared_ids)) = 2
  ∧ counter_len (item_degree (materialize shared_ids)) = 2
  ∧ number_of_nodes (_G (materialize shared_ids)) = 2
  ∧ describe_bipartite (materialize shared_ids) = Raise AssertionError.
Proof. split_and!; first [reflexivity | vm_compute; reflexivity]. Qed.

(** C7 (the code departs from the claim): the pair (1, 2) occurs twice and
    the pair (2, 1) once; the edge between 1 and 2 is written with weight 2
    and then overwritten with weight 1. *)
Theorem edge_weight_shared_ids :
  new shared_ids_twice None None = Ok (materialize shared_ids_twice)
  ∧ _df (materialize shared_ids_twice) = shared_ids_twice
  ∧ occurrences (EInt 1, EInt 2) shared_ids_twice = 2
  ∧ edge_weight (_G (materialize shared_ids_twice)) (EInt 1) (EInt 2) = Some 1.
Proof. split_and!; first [reflexivity | vm_compute; reflexivity]. Qed.

(** C3 (the code departs from the claim): items p and q have the users a
    and b, so they share no user; both are also users of item z.  The
    projection onto the items joins p and q with weight 1, their common
    neighbour in the graph being the item z, and it also contains the node
    a, which is no item, joined to z. *)
Theorem projection_shared_ids :
  new crossed_ids None None = Ok (materialize crossed_ids)
  ∧ EStr "p" ∈ item_set (materialize crossed_ids)
  ∧ EStr "q" ∈ item_set (materialize crossed_ids)
  ∧ users_of crossed_ids (EStr "p") = {[EStr "a"]}
  ∧ users_of crossed_ids (EStr "q") = {[EStr "b"]}
  ∧ (EStr "z" ∉ user_set (materialize crossed_ids))
  ∧ (EStr "a" ∉ item_set (materialize crossed_ids))
  ∧ (∃ g, projection_onto_items (materialize crossed_ids) = Ok g
          ∧ edge_weight g (EStr "p") (EStr "q") = Some 1
          ∧ edge_weight g (EStr "z") (EStr "a") = Some 1).
Proof.
  split_and!;
    first [ reflexivity
          | apply (bool_decide_unpack _); vm_compute; exact I
          | idtac ].
  apply result_match. vm_compute. done.
Qed.

(** ** Memoisation *)
Section Memo.
Context {Res : Type} `{Countable Res} {Rng : Type}.
Variable default_resolution : Res.
Variable best_partition : Graph → Res → Rng → result (gmap entity nat) * Rng.

Abbreviation world := (@world Res _ _ Rng).

Lemma bind_ok {A B} (m : M A) (k : A → M B) (w w1 : world) (a : A) :
  m w = (Ok a, w1) → bind m k w = k a w1.
Proof. unfold bind. by intros ->. Qed.

Lemma bind_raise {A B} (m : M A) (k : A → M B) (w w1 : world) (e : exn) :
  m w = (Raise e, w1) → bind m k w = (Raise e, w1).
Proof. unfold bind. by intros ->. Qed.

Lemma bind_inv {A B} (m : M A) (k : A → M B) (w w2 : world) (b : B) :
  bind m k w = (Ok b, w2) → ∃ a w1, m w = (Ok a, w1) ∧ k a w1 = (Ok b, w2).
Proof. unfold bind. destruct (m w) as [[a|e] w1]; [eauto|done]. Qed.

Section Cached.
Context {K A : Type} `{Countable K}.
Variable get : world → gmap K A.
Variable set : gmap K A → world → world.
Hypothesis get_set : ∀ c w, get (set c w) = c.

Lemma cached_hit key body (w : world) v :
  get w !! key = Some v → cached get set key body w = (Ok v, w).
Proof. unfold cached. by intros ->. Qed.

Lemma cached_miss key body (w w1 : world) v :
  get w !! key = None → body w = (Ok v, w1) →
  cached get set key body w = (Ok v, set (<[key := v]> (get w1)) w1).
Proof. unfold cached. by intros -> ->. Qed.

Lemma cached_stored key body (w w1 : world) v :
  cached get set key body w = (Ok v, w1) → get w1 !! key = Some v.
Proof.
  unfold cached. destruct (get w !! key) as [v'|] eqn:Hget.
  - by intros [= <- <-].
  - destruct (body w) as [[v'|e] w']; [|done].
    intros [= <- <-]. by rewrite get_set, lookup_insert_eq.
Qed.

(** A second call with the same key returns the object of the first and
    leaves the world as it is. *)
Lemma cached_again key body (w w1 : world) v :
  cached get set key body w = (Ok v, w1) →
  cached get set key body w1 = (Ok v, w1).
Proof. intros Hfirst%cached_stored. by apply cached_hit. Qed.
End Cached.

(** C8 (amended): a second call of a projection method on the same
    instance, and a second call of a partition method on the same instance
    with the same resolution passed in the same form (omitted, positional
    or by keyword), returns the object the first call returned and changes
    nothing: no allocation, no draw from the random state, no cache
    write. *)
Theorem memoised_call_returns_cached_object
    (self : obj BipartiteCommunity) (resolution : res_arg) (w : world) :
  (∀ projected w1, project_onto_items self w = (Ok projected, w1) →
                   project_onto_items self w1 = (Ok projected, w1))
  ∧ (∀ projected w1, project_onto_users self w = (Ok projected, w1) →
                     project_onto_users self w1 = (Ok projected, w1))
  ∧ (∀ partition w1,
       partition_items default_resolution best_partition self resolution w
       = (Ok partition, w1) →
       partition_items default_resolution best_partition self resolution w1
       = (Ok partition, w1))
  ∧ (∀ partition w1,
       partition_users default_resolution best_partition self resolution w
       = (Ok partition, w1) →
       partition_users default_resolution best_partition self resolution w1
       = (Ok partition, w1)).
Proof. split_and!; intros ? ?; by apply cached_again. Qed.
End Memo.

(** Evaluation of closed runs: an exception is excluded by computing the
    outcome, and two calls in sequence are computed together. *)
Ltac not_raised H :=
  apply (f_equal (λ x, is_ok x.1)) in H; vm_compute in H; discriminate H.

Lemma two_calls {W A B} (m1 : W → result A * W) (m2 : W → result B * W) (w : W)
    (P : A → B → Prop) :
  match m1 w with
  | (Ok a, w1) => match m2 w1 with (Ok b, _) => P a b | (Raise _, _) => False end
  | (Raise _, _) => False
  end →
  ∃ a w1 b w2, m1 w = (Ok a, w1) ∧ m2 w1 = (Ok b, w2) ∧ P a b.
Proof.
  destruct (m1 w) as [[a|?] w1]; [|done].
  destruct (m2 w1) as [[b|?] w2] eqn:H2; [|done].
  intros HP. exists a, w1, b, w2. by rewrite H2.
Qed.

Lemma memoised_call_witness :
  ∃ g1 w1 g2 w2 p1 w3 p2 w4,
    (project_onto_items sample_instance sample_world = (Ok g1, w1)
     ∧ project_onto_items sample_instance w1 = (Ok g1, w1))
    ∧ (project_onto_users sample_instance sample_world = (Ok g2, w2)
       ∧ project_onto_users sample_instance w2 = (Ok g2, w2))
    ∧ (partition_items 10%Z sample_best_partition sample_instance (Keyword 5%Z) sample_world
       = (Ok p1, w3)
       ∧ partition_items 10%Z sample_best_partition sample_instance (Keyword 5%Z) w3
         = (Ok p1, w3))
    ∧ (partition_users 10%Z sample_best_partition sample_instance Omitted sample_world
       = (Ok p2, w4)
       ∧ partition_users 10%Z sample_best_partition sample_instance Omitted w4
         = (Ok p2, w4)).
Proof.
  destruct (project_onto_items sample_instance sample_world) as [[g1|e] w1] eqn:H1;
    [|not_raised H1].
  destruct (project_onto_users sample_instance sample_world) as [[g2|e] w2] eqn:H2;
    [|not_raised H2].
  destruct (partition_items 10%Z sample_best_partition sample_instance (Keyword 5%Z)
              sample_world) as [[p1|e] w3] eqn:H3; [|not_raised H3].
  destruct (partition_users 10%Z sample_best_partition sample_instance Omitted
              sample_world) as [[p2|e] w4] eqn:H4; [|not_raised H4].
  exists g1, w1, g2, w2, p1, w3, p2, w4.
  destruct (memoised_call_returns_cached_object 10%Z sample_best_partition
              sample_instance (Keyword 5%Z) sample_world) as (Hi & _ & Hpi & _).
  destruct (memoised_call_returns_cached_object 10%Z sample_best_partition
              sample_instance Omitted sample_world) as (_ & Hu & _ & Hpu).
  split_and!; [done|by apply Hi|done|by apply Hu|done|by apply Hpi|done|by apply Hpu].
Defined.

(** C8 as stated fails: the resolution 1.0 passed positionally and then by
    keyword gives two cache keys, so the second call runs the clustering
    again and returns another object, here with another partition. *)
Lemma partition_call_forms_miss :
  ∃ p1 w1 p2 w2,
    partition_items 10%Z sample_best_partition sample_instance (Positional 10%Z) sample_world
    = (Ok p1, w1)
    ∧ partition_items 10%Z sample_best_partition sample_instance (Keyword 10%Z) w1
      = (Ok p2, w2)
    ∧ (oid p1 = 2 ∧ oid p2 = 3 ∧ oval p1 !! i1 = Some 0 ∧ oval p2 !! i1 = Some 1).
Proof. apply two_calls. vm_compute. done. Qed.

(** ** The grid search *)

Lemma NoDup_list_prod {A B} (l : list A) (k : list B) :
  NoDup l → NoDup k → NoDup (list_prod l k).
Proof.
  intros Hl Hk. induction Hl as [|a l Ha Hl IH]; cbn [list_prod]; [constructor|].
  apply NoDup_app. split_and!; [| |done].
  - apply (NoDup_fmap_2 (pair a)), Hk.
  - intros [a' b] [b' [[= -> ->] _]]%list_elem_of_fmap Hin%list_elem_of_In.
    apply in_prod_iff in Hin as [Hin%list_elem_of_In _]. done.
Qed.

Section Grid.
Context {Res : Type} `{Countable Res} {Score Rng : Type}.
Variable default_resolution : Res.
Variable best_partition : Graph → Res → Rng → result (gmap entity nat) * Rng.
Variable modularity : gmap entity nat → Graph → result Score.

Abbreviation world := (@world Res _ _ Rng).
Abbreviation scored := (scored modularity).
Abbreviation loop_inv := (loop_inv modularity).

Lemma is_ok_inv {A} (r : result A) : is_ok r → ∃ a, r = Ok a.
Proof. destruct r; [eauto|done]. Qed.

Section ResolutionLoop.
Variable self : obj BipartiteCommunity.
Variable projected : obj Graph.
Variable min_deg : Z.
Variable debug : bool.

Lemma partition_items_scored (res : Res) (w : world) :
  loop_inv self projected debug w →
  (∀ seed, ∃ partition, (best_partition (oval projected) res seed).1 = Ok partition
                        ∧ scored debug (oval projected) partition) →
  ∃ p w1, partition_items default_resolution best_partition self (Keyword res) w
          = (Ok p, w1)
          ∧ scored debug (oval projected) (oval p)
          ∧ loop_inv self projected debug w1.
Proof.
  intros (Hproj & Hself & [Hf1 Hf2] & Hcache) Hbp.
  unfold partition_items, cached.
  destruct (cache_partition_items w !! (oid self, Keyword res)) as [p|] eqn:Hlook.
  { exists p, w. split_and!; [done|by eapply Hcache|done]. }
  erewrite bind_ok; [|by apply cached_hit].
  unfold bind, run_best_partition, ret. cbn [resolution_of].
  destruct (Hbp (rng w)) as (partition & Hpart & Hscored).
  destruct (best_partition (oval projected) res (rng w)) as [rp rng'].
  cbn [fst] in Hpart. subst rp. cbn.
  eexists _, _. split; [reflexivity|]. split; [done|].
  split_and!; cbn.
  - done.
  - lia.
  - split; cbn.
    + intros k o Hk. specialize (Hf1 k o Hk). lia.
    + intros k a o. rewrite lookup_insert. case_decide as Hkey.
      * injection Hkey as <- <-. lia.
      * intros Hk. specialize (Hf2 k a o Hk). lia.
  - intros a p. rewrite lookup_insert. case_decide as Hkey.
    + intros [= <-]. done.
    + apply Hcache.
Qed.

Lemma resolution_loop_completes (P : Z * Res → Score → Prop) (resolution : list Res) :
  (∀ res s p, modularity p (oval projected) = Ok s → P (min_deg, res) s) →
  ∀ data w,
    loop_inv self projected debug w →
    (∀ res seed, res ∈ resolution →
       ∃ partition, (best_partition (oval projected) res seed).1 = Ok partition
                    ∧ scored debug (oval projected) partition) →
    map_Forall P data →
    ∃ data' w',
      resolution_loop default_resolution best_partition modularity
        self projected min_deg debug resolution data w = (Ok data', w')
      ∧ loop_inv self projected debug w'
      ∧ (∀ k, k ∈ dom data' ↔ k ∈ dom data ∨ (k.1 = min_deg ∧ k.2 ∈ resolution))
      ∧ map_Forall P data'.
Proof.
  intros HP. induction resolution as [|res rest IH]; intros data w Hinv Hbp Hdata.
  { exists data, w. split_and!; [done|done| |done].
    intros k. rewrite elem_of_nil. tauto. }
  cbn [resolution_loop].
  destruct (partition_items_scored res w Hinv) as (p & w1 & Hcall & [Hmod Hmed] & Hinv1).
  { intros seed. apply Hbp. left. }
  erewrite bind_ok by exact Hcall.
  apply is_ok_inv in Hmod as [s Hs].
  erewrite bind_ok; [|unfold lift; by rewrite Hs].
  assert ((if debug then lift (median_community_size (oval p)) else ret 0) w1
          = (Ok (if debug then default 0 (ok_or_none (median_community_size (oval p)))
                 else 0), w1)) as Hreport.
  { destruct debug; [|done].
    destruct (is_ok_inv _ (Hmed eq_refl)) as [c Hc]. unfold lift. by rewrite Hc. }
  erewrite bind_ok by exact Hreport.
  destruct (IH (<[(min_deg, res) := s]> data) w1 Hinv1) as (data' & w' & Hrun & Hinv' & Hdom & HP').
  { intros res' seed Hres'. apply Hbp. by right. }
  { apply map_Forall_insert_2; [by eapply HP|done]. }
  exists data', w'. split_and!; [done|done| |done].
  intros [t r]. rewrite Hdom, dom_insert_L, elem_of_union, elem_of_singleton, elem_of_cons.
  cbn [fst snd]. split.
  - intros [[[= -> ->]|?]|[-> ?]]; tauto.
  - intros [?|[-> [->|?]]]; tauto.
Qed.
End ResolutionLoop.

Lemma instantiate_item_threshold (df : DataFrame) (min_deg : Z) (w : world) :
  instantiate df None (Some (Some min_deg)) w
  = (Ok {| oid := next_id w; oval := materialize (select_rows df None (Some min_deg)) |},
     set_next_id (S (next_id w)) w).
Proof. reflexivity. Qed.

Lemma threshold_loop_completes (df : DataFrame) (debug : bool) (resolution : list Res)
    (min_item_degree : list Z) :
  ∀ data w,
    fresh w →
    (∀ t, t ∈ min_item_degree →
          threshold_completes best_partition modularity df debug resolution t) →
    map_Forall (λ k s, score_of modularity df k.1 s) data →
    ∃ data' w',
      threshold_loop default_resolution best_partition modularity
        df debug min_item_degree resolution data w = (Ok data', w')
      ∧ fresh w'
      ∧ (∀ k, k ∈ dom data' ↔ k ∈ dom data ∨ (k.1 ∈ min_item_degree ∧ k.2 ∈ resolution))
      ∧ map_Forall (λ k s, score_of modularity df k.1 s) data'.
Proof.
  induction min_item_degree as [|t rest IH]; intros data w Hfresh Hgrid Hdata.
  { exists data, w. split_and!; [done|done| |done].
    intros k. rewrite elem_of_nil. tauto. }
  cbn [threshold_loop].
  erewrite bind_ok by apply instantiate_item_threshold.
  set (bc := {| oid := next_id w; oval := materialize (select_rows df None (Some t)) |}).
  set (w1 := set_next_id (S (next_id w)) w).
  destruct (Hgrid t) as (g & Hg & Hbp); [left|].
  destruct Hfresh as [Hf1 Hf2].
  set (projected := {| oid := next_id w1; oval := g |}).
  set (w2 := set_cache_project_onto_items
               (<[oid bc := projected]> (cache_project_onto_items w1))
               (set_next_id (S (next_id w1)) w1)).
  assert (project_onto_items bc w1 = (Ok projected, w2)) as Hproject.
  { unfold project_onto_items.
    apply (cached_miss cache_project_onto_items set_cache_project_onto_items
             (oid bc) _ w1 (set_next_id (S (next_id w1)) w1) projected).
    - destruct (cache_project_onto_items w1 !! oid bc) as [o|] eqn:Ho; [|done].
      apply Hf1 in Ho. cbn in Ho. lia.
    - unfold bind, lift. cbn [oval bc]. by rewrite Hg. }
  erewrite bind_ok by exact Hproject.
  assert (loop_inv bc projected debug w2) as Hinv.
  { split_and!; cbn.
    - by rewrite lookup_insert_eq.
    - lia.
    - split; cbn.
      + intros k o. rewrite lookup_insert. case_decide as Hk; [lia|].
        intros Hko%Hf1. lia.
      + intros k a o Hko%Hf2. lia.
    - intros a p Hp%Hf2. lia. }
  destruct (resolution_loop_completes bc projected t debug
              (λ k s, score_of modularity df k.1 s) resolution)
    with (data := data) (w := w2) as (data1 & w3 & Hrun & Hinv3 & Hdom1 & Hdata1);
    [|done| |done|].
  { intros res s p Hs. exists g, p. done. }
  { intros res seed Hres. by apply Hbp. }
  erewrite bind_ok by exact Hrun.
  destruct (IH data1 w3) as (data' & w' & Hrest & Hfresh' & Hdom & Hdata');
    [apply Hinv3| |done|].
  { intros t' Ht'. apply Hgrid. by right. }
  exists data', w'. split_and!; [done|done| |done].
  intros k. rewrite Hdom, Hdom1, elem_of_cons. tauto.
Qed.

(** C9 (amended): when the thresholds and the resolutions are free of
    duplicates and no iteration raises, the search returns a mapping with
    exactly [|T| * |R|] entries, one under each pair of the product and none
    else, each the modularity of a partition of the projected graph of its
    threshold. *)
Theorem grid_search_complete (df : DataFrame) (min_item_degree : list Z)
    (resolution : list Res) (debug : bool) (w : world) :
  NoDup min_item_degree → NoDup resolution → fresh w →
  (∀ t, t ∈ min_item_degree →
        threshold_completes best_partition modularity df debug resolution t) →
  ∃ data w',
    optimize_modularity default_resolution best_partition modularity
      df min_item_degree resolution debug w = (Ok data, w')
    ∧ size data = length min_item_degree * length resolution
    ∧ (∀ t r, is_Some (data !! (t, r)) ↔ t ∈ min_item_degree ∧ r ∈ resolution)
    ∧ (∀ t r s, data !! (t, r) = Some s → score_of modularity df t s).
Proof.
  intros HT HR Hfresh Hgrid. unfold optimize_modularity.
  destruct (threshold_loop_completes df debug resolution min_item_degree ∅ w)
    as (data & w' & Hrun & _ & Hdom & Hdata); [done|done|apply map_Forall_empty|].
  exists data, w'. split_and!; [done| | |].
  - rewrite <- size_dom, <- length_prod.
    rewrite <- (size_list_to_set (C := gset (Z * Res)));
      [|by apply NoDup_list_prod].
    f_equal. apply set_eq. intros [t r].
    rewrite Hdom, elem_of_list_to_set.
    rewrite (list_elem_of_In (list_prod min_item_degree resolution)).
    rewrite (in_prod_iff min_item_degree resolution t r), <- !list_elem_of_In.
    rewrite dom_empty_L, elem_of_empty. cbn [fst snd]. tauto.
  - intros t r. rewrite <- elem_of_dom, Hdom, dom_empty_L, elem_of_empty.
    cbn [fst snd]. tauto.
  - intros t r s Hs. apply (Hdata _ _ Hs).
Qed.
End Grid.

(** The debug report raises exactly on an empty partition. *)
Lemma median_community_size_empty : median_community_size ∅ = Raise IndexError.
Proof. reflexivity. Qed.

Lemma median_community_size_ok (partition : gmap entity nat) :
  partition ≠ ∅ → is_ok (median_community_size partition).
Proof.
  intros Hne. unfold median_community_size.
  set (counts := merge_sort le (Counter (map_to_list partition).*2).*2).
  assert (0 < length counts) as Hlen.
  { unfold counts. rewrite merge_sort_Permutation, length_fmap.
    destruct (map_to_list partition) as [|[k c] l] eqn:Hl.
    - by apply map_to_list_empty_iff in Hl.
    - assert (c ∈ (Counter ((k, c) :: l).*2).*1) as Hc
        by (apply elem_of_Counter_keys; left).
      destruct (Counter ((k, c) :: l).*2); [by apply elem_of_nil in Hc|cbn; lia]. }
  destruct (lookup_lt_is_Some_2 counts (length counts / 2)) as [c ->]; [|done].
  apply Nat.div_lt; lia.
Qed.

Lemma fresh_initial_world {Res : Type} `{Countable Res} {Rng : Type} (seed : Rng) :
  fresh (Res := Res) (initial_world seed).
Proof. split; cbn; intros *; by rewrite lookup_empty. Qed.

Lemma one_call {W A} (m : W → result A * W) (w : W) (P : A → Prop) :
  match m w with (Ok a, _) => P a | (Raise _, _) => False end →
  ∃ a w1, m w = (Ok a, w1) ∧ P a.
Proof. destruct (m w) as [[a|?] w1]; [eauto|done]. Qed.

Lemma sample_threshold_completes (t : Z) (n : nat) :
  match projection_onto_items (materialize (select_rows scenario_edges None (Some t))) with
  | Ok g => number_of_nodes g
  | Raise _ => 0
  end = S n →
  threshold_completes sample_best_partition sample_modularity scenario_edges true
    [5%Z; 10%Z] t.
Proof.
  destruct (projection_onto_items _) as [g|e] eqn:Hg; [|done].
  intros Hsize. exists g. split; [done|].
  intros res seed _. eexists. split; [reflexivity|]. split; [done|].
  intros _. apply median_community_size_ok. rewrite fmap_empty_iff.
  intros Hempty%map_size_empty_iff. unfold number_of_nodes in Hsize. lia.
Qed.

Lemma grid_search_complete_witness :
  ∃ data w',
    optimize_modularity 10%Z sample_best_partition sample_modularity
      scenario_edges [1%Z; 2%Z] [5%Z; 10%Z] true (initial_world 0) = (Ok data, w')
    ∧ size data = 4
    ∧ (∀ t r, is_Some (data !! (t, r)) ↔ t ∈ [1%Z; 2%Z] ∧ r ∈ [5%Z; 10%Z])
    ∧ (∀ t r s, data !! (t, r) = Some s → score_of sample_modularity scenario_edges t s).
Proof.
  apply (grid_search_complete 10%Z sample_best_partition sample_modularity
           scenario_edges [1%Z; 2%Z] [5%Z; 10%Z] true (initial_world 0)).
  - apply (bool_decide_unpack _). vm_compute. exact I.
  - apply (bool_decide_unpack _). vm_compute. exact I.
  - apply fresh_initial_world.
  - intros t Ht. rewrite !elem_of_cons, elem_of_nil in Ht.
    destruct Ht as [->|[->|[]]].
    + apply (sample_threshold_completes 1 1). vm_compute. reflexivity.
    + apply (sample_threshold_completes 2 0). vm_compute. reflexivity.
Defined.

(** C9 as stated fails: a threshold listed twice writes the same keys
    twice, so the mapping has |R| entries instead of 2 * |R|; and a
    threshold that leaves no row makes the projection raise, so that no
    mapping is returned. *)
Lemma grid_search_duplicate_threshold :
  (∃ data w',
     optimize_modularity (Rng := nat) 10%Z sample_best_partition sample_modularity
       scenario_edges [1%Z; 1%Z] [10%Z] false (initial_world 0) = (Ok data, w')
     ∧ (size data = 1 ∧ length [1%Z; 1%Z] * length [10%Z] = 2))
  ∧ (optimize_modularity (Rng := nat) 10%Z sample_best_partition sample_modularity
       scenario_edges [5%Z] [10%Z] false (initial_world 0)).1
    = Raise NetworkXAlgorithmError.
Proof.
  split.
  - apply one_call. vm_compute. done.
  - vm_compute. reflexivity.
Qed.

(** ** The graph of [__init__] *)

Lemma wf_empty_graph : wf_graph empty_graph.
Proof. intros n _. apply lookup_empty. Qed.

Lemma adj_empty_graph (x : entity) : adj empty_graph x = ∅.
Proof. unfold adj, empty_graph. cbn. by rewrite lookup_empty. Qed.

Lemma add_node_nodes (n : entity) (a : option node_data) (G : Graph) :
  dom (g_node (add_node n a G)) = {[n]} ∪ dom (g_node G).
Proof. unfold add_node. destruct (g_node G !! n); cbn; apply dom_insert_L. Qed.

Lemma add_node_adj (n : entity) (a : option node_data) (G : Graph) (x : entity) :
  wf_graph G → adj (add_node n a G) x = adj G x.
Proof.
  intros Hwf. unfold add_node, adj. destruct (g_node G !! n) eqn:Hn; cbn; [done|].
  rewrite lookup_insert. case_decide as Hx; [|done]. subst x. by rewrite (Hwf n Hn).
Qed.

Lemma add_node_wf (n : entity) (a : option node_data) (G : Graph) :
  wf_graph G → wf_graph (add_node n a G).
Proof.
  intros Hwf m. unfold add_node. destruct (g_node G !! n) eqn:Hn; cbn.
  - rewrite lookup_insert. case_decide; [done|]. apply Hwf.
  - rewrite !lookup_insert. case_decide; [done|]. apply Hwf.
Qed.

Lemma add_nodes_from_spec (ns : list (entity * node_data)) (G : Graph) :
  wf_graph G →
  wf_graph (add_nodes_from ns G)
  ∧ dom (g_node (add_nodes_from ns G)) = list_to_set ns.*1 ∪ dom (g_node G)
  ∧ ∀ x, adj (add_nodes_from ns G) x = adj G x.
Proof.
  unfold add_nodes_from. revert G.
  induction ns as [|[n d] ns IH]; intros G Hwf; cbn [foldl fst snd].
  { split_and!; [done| |done]. cbn. by rewrite (left_id_L ∅ (∪)). }
  destruct (IH (add_node n (Some d) G)) as (Hwf' & Hdom & Hadj); [by apply add_node_wf|].
  split_and!; [done| |].
  - rewrite Hdom, add_node_nodes, fmap_cons, list_to_set_cons. cbn [fst].
    clear. set_solver.
  - intros x. rewrite Hadj. by apply add_node_adj.
Qed.

Lemma touch_node_nodes (n : entity) (G : Graph) :
  dom (g_node (touch_node n G)) = {[n]} ∪ dom (g_node G).
Proof.
  unfold touch_node. destruct (g_node G !! n) eqn:Hn; cbn; [|apply dom_insert_L].
  assert (n ∈ dom (g_node G)) as Hin by (apply elem_of_dom; eauto).
  clear Hn. set_solver.
Qed.

Lemma touch_node_adj (n : entity) (G : Graph) (x : entity) :
  wf_graph G → adj (touch_node n G) x = adj G x.
Proof.
  intros Hwf. unfold touch_node, adj. destruct (g_node G !! n) eqn:Hn; cbn; [done|].
  rewrite lookup_insert. case_decide as Hx; [|done]. subst x. by rewrite (Hwf n Hn).
Qed.

Lemma touch_node_wf (n : entity) (G : Graph) : wf_graph G → wf_graph (touch_node n G).
Proof.
  intros Hwf m. unfold touch_node. destruct (g_node G !! n) eqn:Hn; cbn; [apply Hwf|].
  rewrite !lookup_insert. case_decide; [done|]. apply Hwf.
Qed.

Lemma add_edge_nodes (u v : entity) (w : nat) (G : Graph) :
  dom (g_node (add_edge u v w G)) = {[u; v]} ∪ dom (g_node G).
Proof. unfold add_edge. cbn. rewrite !touch_node_nodes. clear. set_solver. Qed.

Lemma add_edge_wf (u v : entity) (w : nat) (G : Graph) :
  wf_graph G → wf_graph (add_edge u v w G).
Proof.
  intros Hwf m Hm. unfold add_edge in *. cbn in *.
  assert (m ∉ dom (g_node (touch_node v (touch_node u G)))) as Hdom
    by (by apply not_elem_of_dom).
  rewrite !touch_node_nodes in Hdom.
  rewrite !lookup_insert_ne by (clear -Hdom; set_solver).
  by apply (touch_node_wf v (touch_node u G) (touch_node_wf u G Hwf) m).
Qed.

(** An edge writes its weight in both directions and leaves every other
    entry of the adjacency as it was. *)
Lemma add_edge_adj (u v : entity) (w : nat) (G : Graph) (x y : entity) :
  wf_graph G →
  adj (add_edge u v w G) x !! y
  = if decide (joins x y (u, v, w)) then Some w else adj G x !! y.
Proof.
  intros Hwf. unfold joins. cbn [fst snd].
  assert (∀ z, adj (touch_node v (touch_node u G)) z = adj G z) as Htouch.
  { intros z. rewrite !touch_node_adj; [done..|by apply touch_node_wf]. }
  assert (adj (add_edge u v w G) x
          = if decide (v = x)
            then <[u := w]> (if decide (u = v) then <[v := w]> (adj G u) else adj G v)
            else if decide (u = x) then <[v := w]> (adj G u) else adj G x) as ->.
  { unfold add_edge. cbv zeta. unfold adj at 1. cbn [g_adj].
    rewrite lookup_insert. destruct (decide (v = x)) as [->|Hvx].
    - cbn [from_option]. unfold id at 1. rewrite lookup_insert.
      destruct (decide (u = x)) as [->|Hux].
      + cbn [from_option]. unfold id at 1. by rewrite Htouch.
      + fold (adj (touch_node x (touch_node u G)) x). by rewrite Htouch.
    - rewrite lookup_insert. destruct (decide (u = x)) as [->|Hux].
      + cbn [from_option]. unfold id at 1. by rewrite Htouch.
      + fold (adj (touch_node v (touch_node u G)) x). by rewrite Htouch. }
  destruct (decide (v = x)) as [->|Hvx].
  - rewrite lookup_insert. destruct (decide (u = y)) as [->|Huy].
    + rewrite decide_True by tauto. done.
    + destruct (decide (u = x)) as [->|Hux].
      * rewrite lookup_insert. destruct (decide (x = y)) as [->|Hxy]; [done|].
        rewrite decide_False by (intros [[? ?]|[? ?]]; congruence). done.
      * rewrite decide_False by (intros [[? ?]|[? ?]]; congruence). done.
  - destruct (decide (u = x)) as [->|Hux].
    + rewrite lookup_insert. destruct (decide (v = y)) as [->|Hvy].
      * rewrite decide_True by tauto. done.
      * rewrite decide_False by (intros [[? ?]|[? ?]]; congruence). done.
    + rewrite decide_False by (intros [[? ?]|[? ?]]; congruence). done.
Qed.

Lemma add_weighted_edges_from_cons e es G :
  add_weighted_edges_from (e :: es) G
  = add_weighted_edges_from es (add_edge e.1.1 e.1.2 e.2 G).
Proof. reflexivity. Qed.

Lemma add_weighted_edges_from_wf es G :
  wf_graph G → wf_graph (add_weighted_edges_from es G).
Proof.
  revert G. induction es as [|e es IH]; intros G Hwf; [done|].
  rewrite add_weighted_edges_from_cons. by apply IH, add_edge_wf.
Qed.

Lemma add_weighted_edges_from_nodes es G :
  dom (g_node (add_weighted_edges_from es G))
  = list_to_set es.*1.*1 ∪ list_to_set es.*1.*2 ∪ dom (g_node G).
Proof.
  revert G. induction es as [|e es IH]; intros G.
  { cbn. clear. set_solver. }
  rewrite add_weighted_edges_from_cons, IH, add_edge_nodes, !fmap_cons, !list_to_set_cons.
  clear. set_solver.
Qed.

(** After all the edges are written, an entry of the adjacency exists for
    the pairs some tuple joins, and it holds the weight of the last such
    tuple; when all of them carry the same weight, it holds that weight. *)
Lemma add_weighted_edges_from_adj es G (x y : entity) (w : nat) :
  wf_graph G →
  (∀ e, e ∈ es → joins x y e → e.2 = w) →
  adj (add_weighted_edges_from es G) x !! y
  = if decide (Exists (joins x y) es) then Some w else adj G x !! y.
Proof.
  revert G. induction es as [|e es IH]; intros G Hwf Hw.
  { rewrite decide_False; [done|]. by intros ?%Exists_nil. }
  rewrite add_weighted_edges_from_cons, IH;
    [|by apply add_edge_wf|intros e' He'; apply Hw; by right].
  destruct (decide (Exists (joins x y) es)) as [Hes|Hes].
  { rewrite decide_True; [done|]. by apply Exists_cons_tl. }
  rewrite add_edge_adj by done.
  destruct e as [[a b] n]. cbn [fst snd].
  destruct (decide (joins x y (a, b, n))) as [He|He].
  - rewrite decide_True by (by apply Exists_cons_hd).
    f_equal. apply (Hw (a, b, n)); [left|done].
  - rewrite decide_False; [done|]. by intros [?|?]%Exists_cons.
Qed.

Lemma add_weighted_edges_from_neighbors es G (x y : entity) :
  wf_graph G →
  is_Some (adj (add_weighted_edges_from es G) x !! y)
  ↔ Exists (joins x y) es ∨ is_Some (adj G x !! y).
Proof.
  revert G. induction es as [|e es IH]; intros G Hwf.
  { rewrite Exists_nil. tauto. }
  rewrite add_weighted_edges_from_cons, IH by (by apply add_edge_wf).
  rewrite add_edge_adj by done. rewrite Exists_cons.
  destruct e as [[a b] n]. cbn [fst snd].
  destruct (decide (joins x y (a, b, n))) as [He|He]; [|tauto].
  split; [tauto|]. intros _. right. eauto.
Qed.

Section Materialize.
Variable df1 : DataFrame.

Lemma list_to_set_Counter_keys (xs : list entity) :
  list_to_set (C := gset entity) (Counter xs).*1 = list_to_set xs.
Proof. apply set_eq. intros k. by rewrite !elem_of_list_to_set, elem_of_Counter_keys. Qed.

Lemma counter_len_Counter (xs : list entity) :
  counter_len (Counter xs) = size (list_to_set (C := gset entity) xs).
Proof.
  rewrite <- list_to_set_Counter_keys, size_list_to_set by apply Counter_keys_NoDup.
  unfold counter_len. by rewrite length_fmap.
Qed.

Lemma node_list_keys :
  (node_list df1).*1 = (Counter (user_col df1)).*1 ++ (Counter (item_col df1)).*1.
Proof.
  unfold node_list. rewrite fmap_app, <- !list_fmap_compose. done.
Qed.

Lemma elem_of_edge_list (a b : entity) (n : nat) :
  (a, b, n) ∈ edge_list df1 ↔ (a, b) ∈ df1 ∧ n = occurrences (a, b) df1.
Proof.
  unfold edge_list. rewrite list_elem_of_fmap. split.
  - intros [[[a' b'] n'] [[= -> -> ->] Hin]]. by apply elem_of_Counter in Hin.
  - intros [Hin ->]. exists ((a, b), occurrences (a, b) df1). split; [done|].
    by apply elem_of_Counter.
Qed.

Lemma Exists_joins_edge_list (x y : entity) :
  Exists (joins x y) (edge_list df1) ↔ (x, y) ∈ df1 ∨ (y, x) ∈ df1.
Proof.
  rewrite Exists_exists. split.
  - intros [[[a b] n] [[Hin _]%elem_of_edge_list [[<- <-]|[<- <-]]]]; tauto.
  - intros [Hin|Hin].
    + exists (x, y, occurrences (x, y) df1). split; [by apply elem_of_edge_list|].
      by left.
    + exists (y, x, occurrences (y, x) df1). split; [by apply elem_of_edge_list|].
      by right.
Qed.

Lemma nodes_wf : wf_graph (add_nodes_from (node_list df1) empty_graph).
Proof. apply add_nodes_from_spec, wf_empty_graph. Qed.

(** The nodes of the graph are the values of the two columns. *)
Lemma materialize_nodes :
  dom (g_node (_G (materialize df1)))
  = list_to_set (user_col df1) ∪ list_to_set (item_col df1).
Proof.
  cbn [_G materialize]. rewrite add_weighted_edges_from_nodes.
  destruct (add_nodes_from_spec (node_list df1) empty_graph wf_empty_graph)
    as (_ & -> & _).
  rewrite node_list_keys, list_to_set_app_L, !list_to_set_Counter_keys.
  cbn [g_node empty_graph]. rewrite dom_empty_L.
  apply set_eq. intros k.
  rewrite !elem_of_union, !elem_of_list_to_set, elem_of_empty.
  unfold user_col, item_col. rewrite !list_elem_of_fmap. split; [|tauto].
  intros [[(r & -> & Hin)|(r & -> & Hin)]|[?|[]]]; [| |done];
    apply list_elem_of_fmap in Hin as ([[a b] n] & -> & Hin);
    apply elem_of_edge_list in Hin as [Hin _]; cbn [fst snd].
  - left. by exists (a, b).
  - right. by exists (a, b).
Qed.

Lemma materialize_wf : wf_graph (_G (materialize df1)).
Proof. apply add_weighted_edges_from_wf, nodes_wf. Qed.

(** Two keys are adjacent exactly when a row joins them, in either order. *)
Lemma materialize_neighbors (x y : entity) :
  y ∈ neighbors (_G (materialize df1)) x ↔ (x, y) ∈ df1 ∨ (y, x) ∈ df1.
Proof.
  unfold neighbors. rewrite elem_of_dom. cbn [_G materialize].
  rewrite add_weighted_edges_from_neighbors by apply nodes_wf.
  destruct (add_nodes_from_spec (node_list df1) empty_graph wf_empty_graph)
    as (_ & _ & ->).
  rewrite adj_empty_graph, lookup_empty, Exists_joins_edge_list.
  split; [|tauto]. intros [?|[? [=]]]. done.
Qed.

(** Unless the reversed pair occurs as well, the weight between [x] and
    [y] is the number of rows [(x, y)]. *)
Lemma materialize_edge_weight (x y : entity) :
  ((y, x) ∈ df1 → x = y) →
  edge_weight (_G (materialize df1)) x y
  = (if decide ((x, y) ∈ df1) then Some (occurrences (x, y) df1) else None)
  ∧ edge_weight (_G (materialize df1)) y x = edge_weight (_G (materialize df1)) x y.
Proof.
  intros Hrev.
  assert (∀ e, e ∈ edge_list df1 → joins x y e → e.2 = occurrences (x, y) df1) as Hw.
  { intros [[a b] n] [Hin ->]%elem_of_edge_list [[<- <-]|[<- <-]]; [done|].
    cbn [fst snd] in *. by rewrite (Hrev Hin). }
  assert (∀ e, e ∈ edge_list df1 → joins y x e → e.2 = occurrences (x, y) df1) as Hw'.
  { intros e He [?|?]; apply Hw; unfold joins; tauto. }
  unfold edge_weight. cbn [_G materialize].
  rewrite (add_weighted_edges_from_adj _ _ x y _ nodes_wf Hw).
  rewrite (add_weighted_edges_from_adj _ _ y x _ nodes_wf Hw').
  destruct (add_nodes_from_spec (node_list df1) empty_graph wf_empty_graph)
    as (_ & _ & Hadj).
  rewrite !Hadj, !adj_empty_graph, !lookup_empty.
  assert (Exists (joins x y) (edge_list df1) ↔ (x, y) ∈ df1) as Hxy.
  { rewrite Exists_joins_edge_list. split; [|tauto].
    intros [?|Hin]; [done|]. by destruct (Hrev Hin). }
  assert (Exists (joins y x) (edge_list df1) ↔ (x, y) ∈ df1) as Hyx.
  { rewrite Exists_joins_edge_list. split; [|tauto].
    intros [Hin|?]; [|done]. by destruct (Hrev Hin). }
  by rewrite (decide_ext _ _ _ _ Hxy), (decide_ext _ _ _ _ Hyx).
Qed.

(** The node count agrees with the assertion of [describe_bipartite]
    exactly when no identifier occurs in both columns. *)
Lemma materialize_node_count :
  number_of_nodes (_G (materialize df1))
  = size (list_to_set (C := gset entity) (user_col df1) ∪ list_to_set (item_col df1))
  ∧ (counter_len (user_degree (materialize df1))
     + counter_len (item_degree (materialize df1))
     = number_of_nodes (_G (materialize df1))
     ↔ list_to_set (C := gset entity) (user_col df1) ## list_to_set (item_col df1)).
Proof.
  assert (number_of_nodes (_G (materialize df1))
          = size (list_to_set (C := gset entity) (user_col df1)
                  ∪ list_to_set (item_col df1))) as Hn.
  { unfold number_of_nodes. by rewrite <- size_dom, materialize_nodes. }
  split; [done|]. rewrite Hn. cbn [user_degree item_degree materialize].
  rewrite !counter_len_Counter.
  set (U := list_to_set (user_col df1) : gset entity).
  set (I := list_to_set (item_col df1) : gset entity).
  rewrite (size_union_alt U I). split.
  - intros Hsize. assert (size (I ∖ U) = size I) as Hdiff by lia.
    assert (I ∖ U = I) as Heq.
    { apply set_eq. apply set_subseteq_size_equiv; [set_solver|lia]. }
    clear -Heq. set_solver.
  - intros Hdisj. assert (I ∖ U = I) as -> by (clear -Hdisj; set_solver). done.
Qed.
End Materialize.

(** ** The projection *)
Section Projection.
Variable B : Graph.

Lemma elem_of_two_step_neighbors (u y : entity) :
  y ∈ two_step_neighbors B u ↔ y ≠ u ∧ ∃ n, n ∈ neighbors B u ∧ y ∈ neighbors B n.
Proof.
  unfold two_step_neighbors.
  rewrite elem_of_difference, elem_of_singleton, elem_of_union_list. split.
  - intros [(X & HX & Hy) Hne].
    apply list_elem_of_fmap in HX as (n & -> & Hn%elem_of_elements). eauto.
  - intros [Hne (n & Hn & Hy)]. split; [|done].
    exists (neighbors B n). split; [|done].
    apply list_elem_of_fmap. exists n. split; [done|]. by apply elem_of_elements.
Qed.

(** The edges one node of [nodes] contributes. *)
Lemma project_node_spec (u : entity) (G : Graph) :
  wf_graph G →
  wf_graph (project_node B u G)
  ∧ dom (g_node G) ⊆ dom (g_node (project_node B u G))
  ∧ ∀ x y, adj (project_node B u G) x !! y
           = if decide ((x = u ∧ y ∈ two_step_neighbors B u)
                        ∨ (y = u ∧ x ∈ two_step_neighbors B u))
             then Some (size (neighbors B x ∩ neighbors B y))
             else adj G x !! y.
Proof.
  intros Hwf. unfold project_node. cbv zeta.
  pose (inv := λ (G' : Graph) (X : gset entity),
          wf_graph G'
          ∧ dom (g_node G) ⊆ dom (g_node G')
          ∧ ∀ x y, adj G' x !! y
                   = if decide ((x = u ∧ y ∈ X) ∨ (y = u ∧ x ∈ X))
                     then Some (size (neighbors B x ∩ neighbors B y))
                     else adj G x !! y).
  apply (set_fold_ind_L inv); unfold inv; clear inv.
  { split_and!; [done|done|]. intros x y. rewrite decide_False; [done|].
    rewrite !elem_of_empty. tauto. }
  intros v X G' Hv (Hwf' & Hdom & Hadj). split_and!.
  - by apply add_edge_wf.
  - rewrite add_edge_nodes. clear -Hdom. set_solver.
  - intros x y. rewrite add_edge_adj by done. rewrite Hadj. unfold joins. cbn [fst snd].
    destruct (decide (u = x ∧ v = y ∨ u = y ∧ v = x)) as [Hj|Hj].
    + rewrite decide_True.
      * destruct Hj as [[<- <-]|[<- <-]]; [done|].
        by rewrite (comm_L (∩) (neighbors B v)).
      * rewrite !elem_of_union, !elem_of_singleton. destruct Hj as [[<- <-]|[<- <-]]; tauto.
    + apply decide_ext. rewrite !elem_of_union, !elem_of_singleton.
      clear -Hj. naive_solver.
Qed.

Lemma projected_edges_spec (nodes : gset entity) (G0 : Graph) :
  wf_graph G0 →
  wf_graph (set_fold (project_node B) G0 nodes)
  ∧ dom (g_node G0) ⊆ dom (g_node (set_fold (project_node B) G0 nodes))
  ∧ ∀ x y, adj (set_fold (project_node B) G0 nodes) x !! y
           = if decide ((x ∈ nodes ∧ y ∈ two_step_neighbors B x)
                        ∨ (y ∈ nodes ∧ x ∈ two_step_neighbors B y))
             then Some (size (neighbors B x ∩ neighbors B y))
             else adj G0 x !! y.
Proof.
  intros Hwf.
  pose (inv := λ (G' : Graph) (X : gset entity),
          wf_graph G'
          ∧ dom (g_node G0) ⊆ dom (g_node G')
          ∧ ∀ x y, adj G' x !! y
                   = if decide ((x ∈ X ∧ y ∈ two_step_neighbors B x)
                                ∨ (y ∈ X ∧ x ∈ two_step_neighbors B y))
                     then Some (size (neighbors B x ∩ neighbors B y))
                     else adj G0 x !! y).
  apply (set_fold_ind_L inv); unfold inv; clear inv.
  { split_and!; [done|done|]. intros x y. rewrite decide_False; [done|].
    rewrite !elem_of_empty. tauto. }
  intros u X G' Hu (Hwf' & Hdom & Hadj).
  destruct (project_node_spec u G' Hwf') as (Hwf'' & Hdom' & Hadj').
  split_and!; [done|by etrans|].
  intros x y. rewrite Hadj', Hadj.
  destruct (decide ((x = u ∧ y ∈ two_step_neighbors B u)
                    ∨ (y = u ∧ x ∈ two_step_neighbors B u))) as [Hj|Hj].
  - rewrite decide_True; [done|].
    rewrite !elem_of_union, !elem_of_singleton. destruct Hj as [[-> ?]|[-> ?]]; tauto.
  - apply decide_ext. rewrite !elem_of_union, !elem_of_singleton.
    clear -Hj. naive_solver.
Qed.

Lemma projected_nodes_spec (nodes : gset entity) :
  wf_graph (set_fold (λ n G, add_node n (node_attrs B n) G) empty_graph nodes)
  ∧ dom (g_node (set_fold (λ n G, add_node n (node_attrs B n) G) empty_graph nodes))
    = nodes
  ∧ ∀ x, adj (set_fold (λ n G, add_node n (node_attrs B n) G) empty_graph nodes) x = ∅.
Proof.
  pose (inv := λ (G' : Graph) (X : gset entity),
          wf_graph G' ∧ dom (g_node G') = X ∧ ∀ x, adj G' x = ∅).
  apply (set_fold_ind_L inv); unfold inv; clear inv.
  { split_and!; [apply wf_empty_graph|apply dom_empty_L|apply adj_empty_graph]. }
  intros n X G' Hn (Hwf & Hdom & Hadj). split_and!.
  - by apply add_node_wf.
  - by rewrite add_node_nodes, Hdom.
  - intros x. by rewrite add_node_adj.
Qed.

(** The projection returns unless [nodes] leaves no other node, and then
    it contains every node of [nodes] and joins two keys exactly when one of
    them is in [nodes] and the other is two steps away, with the number of
    their common neighbours as weight. *)
Lemma weighted_projected_graph_returns (nodes : gset entity) :
  is_ok (weighted_projected_graph B nodes) ↔ size nodes < number_of_nodes B.
Proof.
  unfold weighted_projected_graph. cbv zeta.
  destruct (Z.ltb_spec (Z.of_nat (number_of_nodes B) - Z.of_nat (size nodes)) 1);
    cbn; split; intros; try done; lia.
Qed.

Lemma weighted_projected_graph_spec (nodes : gset entity) (P : Graph) :
  weighted_projected_graph B nodes = Ok P →
  nodes ⊆ dom (g_node P)
  ∧ ∀ x y, edge_weight P x y
           = if decide ((x ∈ nodes ∧ y ∈ two_step_neighbors B x)
                        ∨ (y ∈ nodes ∧ x ∈ two_step_neighbors B y))
             then Some (size (neighbors B x ∩ neighbors B y))
             else None.
Proof.
  unfold weighted_projected_graph. cbv zeta. case_match; [done|]. intros [= <-].
  destruct (projected_nodes_spec nodes) as (Hwf0 & Hdom0 & Hadj0).
  destruct (projected_edges_spec nodes _ Hwf0) as (_ & Hdom & Hadj).
  split; [by rewrite Hdom0 in Hdom|].
  intros x y. unfold edge_weight. rewrite Hadj, Hadj0, lookup_empty. done.
Qed.

(** In a graph with a symmetric adjacency, two steps away means sharing a
    neighbour. *)
Lemma two_step_neighbors_shared (x y : entity) :
  (∀ a b, b ∈ neighbors B a ↔ a ∈ neighbors B b) →
  y ∈ two_step_neighbors B x ↔ y ≠ x ∧ neighbors B x ∩ neighbors B y ≠ ∅.
Proof.
  intros Hsym. rewrite elem_of_two_step_neighbors. split.
  - intros [Hne (n & Hx & Hy%Hsym)]. split; [done|].
    intros Hempty. apply (not_elem_of_empty (C := gset entity) n).
    rewrite <- Hempty. by apply elem_of_intersection.
  - intros [Hne (n & [Hx Hy]%elem_of_intersection)%set_choose_L]. split; [done|].
    exists n. split; [done|]. by apply Hsym.
Qed.

(** Between two nodes of [nodes] the projection has an edge exactly when
    they differ and share a neighbour, weighted by the number of shared
    neighbours. *)
Lemma projection_same_side (nodes : gset entity) (P : Graph) (x y : entity) :
  (∀ a b, b ∈ neighbors B a ↔ a ∈ neighbors B b) →
  weighted_projected_graph B nodes = Ok P →
  x ∈ nodes → y ∈ nodes →
  edge_weight P x y
  = if decide (x ≠ y ∧ neighbors B x ∩ neighbors B y ≠ ∅)
    then Some (size (neighbors B x ∩ neighbors B y))
    else None.
Proof.
  intros Hsym [_ Hedge]%weighted_projected_graph_spec Hx Hy.
  rewrite Hedge. apply decide_ext.
  rewrite !two_step_neighbors_shared by done.
  rewrite (comm_L (∩) (neighbors B y)). clear -Hx Hy. naive_solver.
Qed.

(** When two steps from a node of [nodes] always lead back into [nodes],
    the nodes of [nodes] are joined to nodes of [nodes] only. *)
Lemma projection_closed (nodes : gset entity) (P : Graph) (x y : entity) (w : nat) :
  (∀ a n b, a ∈ nodes → n ∈ neighbors B a → b ∈ neighbors B n → b ∈ nodes) →
  weighted_projected_graph B nodes = Ok P →
  x ∈ nodes → edge_weight P x y = Some w → y ∈ nodes.
Proof.
  intros Hclosed [_ Hedge]%weighted_projected_graph_spec Hx. rewrite Hedge.
  case_decide as Hj; [|done]. intros _.
  destruct Hj as [[_ (_ & n & Hn & Hyn)%elem_of_two_step_neighbors]|[? _]]; [|done].
  by eapply Hclosed.
Qed.
End Projection.

(** ** Tables whose columns share no identifier

    When no identifier occurs in both columns, the graph is bipartite and
    the node count, the edge weights and the projections are the ones the
    class documents. *)
Section DisjointColumns.
Variable df1 : DataFrame.
Hypothesis columns_disjoint : user_set (materialize df1) ## item_set (materialize df1).

Lemma elem_of_user_set (a : entity) :
  a ∈ user_set (materialize df1) ↔ ∃ b, (a, b) ∈ df1.
Proof.
  unfold user_set, user_col. cbn [_df materialize].
  rewrite elem_of_list_to_set, list_elem_of_fmap. split.
  - intros ([a' b] & -> & Hin). by exists b.
  - intros [b Hin]. by exists (a, b).
Qed.

Lemma elem_of_item_set (b : entity) :
  b ∈ item_set (materialize df1) ↔ ∃ a, (a, b) ∈ df1.
Proof.
  unfold item_set, item_col. cbn [_df materialize].
  rewrite elem_of_list_to_set, list_elem_of_fmap. split.
  - intros ([a b'] & -> & Hin). by exists a.
  - intros [a Hin]. by exists (a, b).
Qed.

Lemma elem_of_users_of (u i : entity) : u ∈ users_of df1 i ↔ (u, i) ∈ df1.
Proof.
  unfold users_of. rewrite elem_of_list_to_set, list_elem_of_fmap. split.
  - intros ([u' i'] & -> & [Hi Hin]%list_elem_of_filter). cbn in *. by subst.
  - intros Hin. exists (u, i). split; [done|]. by apply list_elem_of_filter.
Qed.

Lemma elem_of_items_of (u i : entity) : i ∈ items_of df1 u ↔ (u, i) ∈ df1.
Proof.
  unfold items_of. rewrite elem_of_list_to_set, list_elem_of_fmap. split.
  - intros ([u' i'] & -> & [Hu Hin]%list_elem_of_filter). cbn in *. by subst.
  - intros Hin. exists (u, i). split; [done|]. by apply list_elem_of_filter.
Qed.

Lemma not_both_sides (a b c : entity) : (a, b) ∈ df1 → (c, a) ∈ df1 → False.
Proof.
  intros Hab Hca. apply (columns_disjoint a).
  - apply elem_of_user_set. eauto.
  - apply elem_of_item_set. eauto.
Qed.

Lemma neighbors_symmetric (a b : entity) :
  b ∈ neighbors (_G (materialize df1)) a ↔ a ∈ neighbors (_G (materialize df1)) b.
Proof. rewrite !materialize_neighbors. tauto. Qed.

Lemma neighbors_of_item (i : entity) :
  i ∈ item_set (materialize df1) → neighbors (_G (materialize df1)) i = users_of df1 i.
Proof.
  intros [a Ha]%elem_of_item_set. apply set_eq. intros u.
  rewrite materialize_neighbors, elem_of_users_of. split; [|tauto].
  intros [Hiu|?]; [|done]. destruct (not_both_sides i u a Hiu Ha).
Qed.

Lemma neighbors_of_user (u : entity) :
  u ∈ user_set (materialize df1) → neighbors (_G (materialize df1)) u = items_of df1 u.
Proof.
  intros [b Hb]%elem_of_user_set. apply set_eq. intros i.
  rewrite materialize_neighbors, elem_of_items_of. split; [|tauto].
  intros [?|Hiu]; [done|]. destruct (not_both_sides u b i Hb Hiu).
Qed.

(** The assertion of [describe_bipartite] on the node count holds. *)
Lemma disjoint_node_count :
  number_of_nodes (_G (materialize df1))
  = counter_len (user_degree (materialize df1))
    + counter_len (item_degree (materialize df1)).
Proof. symmetry. by apply materialize_node_count. Qed.

(** A user and an item are joined by one edge whose weight is the number of
    their rows, and not joined when they have no row. *)
Lemma disjoint_edge_weight (a b : entity) :
  a ∈ user_set (materialize df1) →
  edge_weight (_G (materialize df1)) a b
  = (if decide ((a, b) ∈ df1) then Some (occurrences (a, b) df1) else None)
  ∧ edge_weight (_G (materialize df1)) b a = edge_weight (_G (materialize df1)) a b.
Proof.
  intros [b' Hb']%elem_of_user_set. apply materialize_edge_weight.
  intros Hba. destruct (not_both_sides a b' b Hb' Hba).
Qed.

Lemma disjoint_projection_returns :
  df1 ≠ [] →
  is_ok (projection_onto_items (materialize df1))
  ∧ is_ok (projection_onto_users (materialize df1)).
Proof.
  intros Hne. unfold projection_onto_items, projection_onto_users.
  rewrite !weighted_projected_graph_returns.
  destruct (materialize_node_count df1) as [-> _].
  fold (user_set (materialize df1)) (item_set (materialize df1)).
  rewrite size_union by done.
  destruct df1 as [|[a b] df'] eqn:Hdf; [done|]. rewrite <- Hdf in *.
  assert (size (user_set (materialize df1)) ≠ 0).
  { intros Hsize%size_empty_iff.
    apply (not_elem_of_empty (C := gset entity) a), Hsize, elem_of_user_set.
    exists b. rewrite Hdf. left. }
  assert (size (item_set (materialize df1)) ≠ 0).
  { intros Hsize%size_empty_iff.
    apply (not_elem_of_empty (C := gset entity) b), Hsize, elem_of_item_set.
    exists a. rewrite Hdf. left. }
  unfold user_set, item_set in *. cbn [_df materialize] in *. lia.
Qed.

(** The projection onto the items contains every item, joins two items
    exactly when they share a user, with the number of shared users as
    weight, and joins an item to nothing but items. *)
Lemma disjoint_projection_onto_items (P : Graph) :
  projection_onto_items (materialize df1) = Ok P →
  item_set (materialize df1) ⊆ dom (g_node P)
  ∧ (∀ x y, x ∈ item_set (materialize df1) → y ∈ item_set (materialize df1) →
        edge_weight P x y
        = if decide (x ≠ y ∧ users_of df1 x ∩ users_of df1 y ≠ ∅)
          then Some (size (users_of df1 x ∩ users_of df1 y))
          else None)
  ∧ (∀ x y w, x ∈ item_set (materialize df1) → edge_weight P x y = Some w →
        y ∈ item_set (materialize df1)).
Proof.
  unfold projection_onto_items. intros HP. split_and!.
  - by apply weighted_projected_graph_spec in HP as [? _].
  - intros x y Hx Hy.
    rewrite (projection_same_side _ _ _ x y neighbors_symmetric HP Hx Hy).
    by rewrite !neighbors_of_item.
  - intros x y w Hx Hw.
    apply (projection_closed (_G (materialize df1)) (item_set (materialize df1))
             P x y w); [|done..].
    intros a n b Ha. rewrite (neighbors_of_item a Ha), elem_of_users_of.
    intros Hna. rewrite materialize_neighbors. intros [Hnb|Hbn].
    + apply elem_of_item_set. eauto.
    + apply elem_of_item_set in Ha as [c Hc]. destruct (not_both_sides n a b Hna Hbn).
Qed.

(** The same for the projection onto the users. *)
Lemma disjoint_projection_onto_users (P : Graph) :
  projection_onto_users (materialize df1) = Ok P →
  user_set (materialize df1) ⊆ dom (g_node P)
  ∧ (∀ x y, x ∈ user_set (materialize df1) → y ∈ user_set (materialize df1) →
        edge_weight P x y
        = if decide (x ≠ y ∧ items_of df1 x ∩ items_of df1 y ≠ ∅)
          then Some (size (items_of df1 x ∩ items_of df1 y))
          else None)
  ∧ (∀ x y w, x ∈ user_set (materialize df1) → edge_weight P x y = Some w →
        y ∈ user_set (materialize df1)).
Proof.
  unfold projection_onto_users. intros HP. split_and!.
  - by apply weighted_projected_graph_spec in HP as [? _].
  - intros x y Hx Hy.
    rewrite (projection_same_side _ _ _ x y neighbors_symmetric HP Hx Hy).
    by rewrite !neighbors_of_user.
  - intros x y w Hx Hw.
    apply (projection_closed (_G (materialize df1)) (user_set (materialize df1))
             P x y w); [|done..].
    intros a n b Ha. rewrite (neighbors_of_user a Ha), elem_of_items_of.
    intros Han. rewrite materialize_neighbors. intros [Hnb|Hbn].
    + destruct (not_both_sides n b a Hnb Han).
    + apply elem_of_user_set. eauto.
Qed.
End DisjointColumns.

(** * Further properties of the code *)

(** ** The degree filter *)

Lemma occurrences_filter_key (key : row → entity) (Q : entity → Prop)
    `{∀ k, Decision (Q k)} (df : DataFrame) (k : entity) :
  occurrences k (key <$> filter (λ r, Q (key r)) df)
  = if decide (Q k) then occurrences k (key <$> df) else 0.
Proof.
  induction df as [|r df IH]; [by case_decide|].
  rewrite filter_cons, (fmap_cons key r df), (occurrences_cons k (key <$> df)).
  destruct (decide (Q (key r))) as [Hr|Hr].
  - rewrite fmap_cons, occurrences_cons, IH.
    destruct (decide (key r = k)) as [<-|Hk]; by case_decide.
  - rewrite IH. destruct (decide (key r = k)) as [<-|Hk]; by case_decide.
Qed.

Lemma filter_all {A} (P : A → Prop) `{∀ x, Decision (P x)} (l : list A) :
  Forall P l → filter P l = l.
Proof.
  induction 1 as [|x l Hx Hl IH]; [done|]. by rewrite filter_cons_True, IH.
Qed.

Lemma filter_none {A} (P : A → Prop) `{∀ x, Decision (P x)} (l : list A) :
  Forall (λ x, ¬ P x) l → filter P l = [].
Proof.
  induction 1 as [|x l Hx Hl IH]; [done|]. by rewrite filter_cons_False.
Qed.

Lemma occurrences_le_length {K} `{EqDecision K} (k : K) (xs : list K) :
  occurrences k xs ≤ length xs.
Proof. apply length_filter. Qed.

Lemma filter_min_degree_occurrences (key : row → entity) (t : Z) (df : DataFrame) (k : entity) :
  occurrences k (key <$> filter_min_degree key t df)
  = if decide (t ≤ Z.of_nat (occurrences k (key <$> df)))%Z
    then occurrences k (key <$> df) else 0.
Proof.
  rewrite filter_min_degree_spec.
  exact (occurrences_filter_key key
           (λ k0 : entity, (t ≤ Z.of_nat (occurrences k0 (key <$> df)))%Z) df k).
Qed.

(** X1: the filter is stable.  Every entity it keeps keeps all of its rows,
    so its frequency is the one of the unfiltered table, and filtering the
    filtered table again with the same threshold removes nothing. *)
Theorem degree_filter_stable (key : row → entity) (t : Z) (df : DataFrame) :
  filter_min_degree key t (filter_min_degree key t df) = filter_min_degree key t df
  ∧ Forall (λ r, occurrences (key r) (key <$> filter_min_degree key t df)
                 = occurrences (key r) (key <$> df))
      (filter_min_degree key t df).
Proof.
  assert (Forall (λ r, (t ≤ Z.of_nat (occurrences (key r) (key <$> df)))%Z)
            (filter_min_degree key t df)) as Hkept.
  { rewrite filter_min_degree_spec. apply Forall_forall.
    by intros r [? _]%list_elem_of_filter. }
  assert (Forall (λ r, occurrences (key r) (key <$> filter_min_degree key t df)
                       = occurrences (key r) (key <$> df))
            (filter_min_degree key t df)) as Hsame.
  { eapply Forall_impl; [exact Hkept|]. intros r Hr. cbn beta in *.
    by rewrite filter_min_degree_occurrences, decide_True. }
  split; [|done].
  rewrite (filter_min_degree_spec key t (filter_min_degree key t df)).
  apply filter_all. rewrite Forall_forall in *. intros r Hr.
  rewrite (Hsame r Hr). by apply Hkept.
Qed.

(** X2: on the filtered side every recorded degree is the raw frequency of
    the entity in the unfiltered table and reaches the threshold. *)
Theorem filtered_side_degree (df : DataFrame) (t : Z) (bc : BipartiteCommunity)
    (k : entity) (n : nat) :
  (new df (Some t) None = Ok bc → (k, n) ∈ user_degree bc →
     (t ≤ Z.of_nat n)%Z ∧ n = occurrences k (user_col df))
  ∧ (new df None (Some t) = Ok bc → (k, n) ∈ item_degree bc →
       (t ≤ Z.of_nat n)%Z ∧ n = occurrences k (item_col df)).
Proof.
  assert (∀ key, (k, n) ∈ Counter (key <$> filter_min_degree key t df) →
                 (t ≤ Z.of_nat n)%Z ∧ n = occurrences k (key <$> df)) as Hfiltered.
  { intros key [Hin ->]%elem_of_Counter.
    apply occurrences_pos in Hin. rewrite filter_min_degree_occurrences in *.
    case_decide; [done|lia]. }
  assert (∀ key, (k, n) ∈ Counter (key <$> df) → t = 0%Z →
                 (t ≤ Z.of_nat n)%Z ∧ n = occurrences k (key <$> df)) as Hplain.
  { intros key [Hin ->]%elem_of_Counter ->. split; [lia|done]. }
  split; intros ->%new_filtered_shape; cbn [user_degree item_degree materialize];
    unfold select_rows, user_col, item_col; rewrite truthy_Some;
    (case_bool_decide as Ht;
     [cbn [the default from_option id]; apply Hfiltered
     |cbn [truthy]; intros Hin; apply Hplain; [done|lia]]).
Qed.

Lemma filtered_side_degree_witness :
  (3 ≤ Z.of_nat 3)%Z ∧ 3 = occurrences i1 (item_col scenario_edges).
Proof.
  destruct (filtered_side_degree scenario_edges 3
              (materialize [(u1, i1); (u1, i1); (u2, i1)]) i1 3) as [_ Hitem].
  apply Hitem.
  - rewrite new_unfold. cbn [truthy andb]. do 2 f_equal.
  - apply (bool_decide_unpack _). vm_compute. exact I.
Defined.

(** X3: the filter only removes rows, keeping the others in their order,
    and a larger threshold keeps a sublist of what a smaller one keeps. *)
Theorem degree_filter_monotone (key : row → entity) (t1 t2 : Z) (df : DataFrame) :
  (t1 ≤ t2)%Z →
  filter_min_degree key t2 df `sublist_of` filter_min_degree key t1 df
  ∧ filter_min_degree key t1 df `sublist_of` df.
Proof.
  intros Ht. rewrite !filter_min_degree_spec. split; [|apply sublist_filter].
  assert (filter (λ r, (t2 ≤ Z.of_nat (occurrences (key r) (key <$> df)))%Z) df
          = filter (λ r, (t2 ≤ Z.of_nat (occurrences (key r) (key <$> df)))%Z)
              (filter (λ r, (t1 ≤ Z.of_nat (occurrences (key r) (key <$> df)))%Z) df))
    as ->.
  { rewrite list_filter_filter. apply list_filter_iff. intros r. lia. }
  apply sublist_filter.
Qed.

Lemma degree_filter_monotone_witness :
  filter_min_degree snd 3 scenario_edges `sublist_of` filter_min_degree snd 2 scenario_edges
  ∧ filter_min_degree snd 2 scenario_edges `sublist_of` scenario_edges.
Proof. apply (degree_filter_monotone snd 2 3 scenario_edges). lia. Defined.

(** X4: a threshold of at most 1 removes nothing, every entity of the table
    occurring at least once. *)
Theorem degree_filter_at_most_one (key : row → entity) (t : Z) (df : DataFrame) :
  (t ≤ 1)%Z → filter_min_degree key t df = df.
Proof.
  intros Ht. rewrite filter_min_degree_spec. apply filter_all, Forall_forall.
  intros r Hr. assert (0 < occurrences (key r) (key <$> df)); [|lia].
  by apply occurrences_pos, list_elem_of_fmap_2.
Qed.

Lemma degree_filter_at_most_one_witness :
  (1 ≤ 1)%Z ∧ filter_min_degree fst 1 scenario_edges = scenario_edges.
Proof. split; [lia|]. apply (degree_filter_at_most_one fst 1 scenario_edges). lia. Defined.

(** X5: a threshold above the number of rows removes every row, and the
    constructor then returns the empty graph with empty degree tables. *)
Theorem threshold_above_rows (df : DataFrame) (t : Z) :
  (Z.of_nat (length df) < t)%Z →
  new df (Some t) None = Ok (materialize [])
  ∧ new df None (Some t) = Ok (materialize [])
  ∧ number_of_nodes (_G (materialize [])) = 0
  ∧ number_of_edges (_G (materialize [])) = 0
  ∧ user_degree (materialize []) = []
  ∧ item_degree (materialize []) = [].
Proof.
  intros Ht.
  assert (∀ key : row → entity, filter_min_degree key t df = []) as Hempty.
  { intros key. rewrite filter_min_degree_spec. apply filter_none, Forall_forall.
    intros r _. pose proof (occurrences_le_length (key r) (key <$> df)) as Hle.
    rewrite length_fmap in Hle. lia. }
  assert (truthy (Some t) = true) as Htruthy.
  { rewrite truthy_Some. apply bool_decide_eq_true. lia. }
  split_and!; [| |vm_compute; reflexivity..].
  - rewrite new_unfold. change (truthy None) with false. rewrite andb_false_r.
    unfold select_rows. rewrite Htruthy. cbn [the default from_option id].
    by rewrite Hempty.
  - rewrite new_unfold. change (truthy None) with false. cbn [andb].
    unfold select_rows. change (truthy None) with false. cbn iota.
    rewrite Htruthy. cbn [the default from_option id]. by rewrite Hempty.
Qed.

Lemma threshold_above_rows_witness :
  (Z.of_nat (length scenario_edges) < 5)%Z
  ∧ new scenario_edges None (Some 5%Z) = Ok (materialize []).
Proof.
  split; [cbn; lia|].
  apply (threshold_above_rows scenario_edges 5). cbn. lia.
Defined.

(** ** Degree tables, nodes and edges of the graph *)

Lemma add_node_lookup (n m : entity) (d : node_data) (G : Graph) :
  g_node (add_node n (Some d) G) !! m
  = if decide (m = n) then Some (Some d) else g_node G !! m.
Proof.
  unfold add_node. destruct (g_node G !! n) eqn:Hn; cbn [g_node update_attrs];
    rewrite lookup_insert; repeat case_decide; congruence.
Qed.

Lemma add_nodes_from_app (l1 l2 : list (entity * node_data)) (G : Graph) :
  add_nodes_from (l1 ++ l2) G = add_nodes_from l2 (add_nodes_from l1 G).
Proof. unfold add_nodes_from. apply foldl_app. Qed.

Lemma add_nodes_from_other (ns : list (entity * node_data)) (G : Graph) (m : entity) :
  m ∉ ns.*1 → g_node (add_nodes_from ns G) !! m = g_node G !! m.
Proof.
  unfold add_nodes_from. revert G.
  induction ns as [|[n d] ns IH]; intros G Hm; [done|].
  rewrite fmap_cons, not_elem_of_cons in Hm. destruct Hm as [Hne Hm]. cbn [fst] in Hne.
  cbn [foldl fst snd]. rewrite IH by done. rewrite add_node_lookup.
  by rewrite decide_False.
Qed.

Lemma add_nodes_from_lookup (ns : list (entity * node_data)) (G : Graph)
    (m : entity) (d : node_data) :
  NoDup ns.*1 → (m, d) ∈ ns → g_node (add_nodes_from ns G) !! m = Some (Some d).
Proof.
  revert G. induction ns as [|[n d0] ns IH]; intros G Hnd Hin.
  { by apply elem_of_nil in Hin. }
  rewrite fmap_cons in Hnd. apply NoDup_cons in Hnd as [Hn Hnd]. cbn [fst] in Hn.
  apply elem_of_cons in Hin as [[= -> ->]|Hin].
  - change (add_nodes_from ((n, d0) :: ns) G)
      with (add_nodes_from ns (add_node n (Some d0) G)).
    rewrite add_nodes_from_other by done. rewrite add_node_lookup.
    by rewrite decide_True.
  - change (add_nodes_from ((n, d0) :: ns) G)
      with (add_nodes_from ns (add_node n (Some d0) G)).
    by apply IH.
Qed.

Lemma touch_node_lookup (n m : entity) (G : Graph) :
  is_Some (g_node G !! m) → g_node (touch_node n G) !! m = g_node G !! m.
Proof.
  intros Hm. unfold touch_node. destruct (g_node G !! n) eqn:Hn; [done|].
  cbn [g_node]. rewrite lookup_insert_ne; [done|]. intros ->.
  rewrite Hn in Hm. by destruct Hm.
Qed.

Lemma add_edge_lookup (u v : entity) (w : nat) (G : Graph) (m : entity) :
  is_Some (g_node G !! m) → g_node (add_edge u v w G) !! m = g_node G !! m.
Proof.
  intros Hm. unfold add_edge. cbn [g_node].
  rewrite touch_node_lookup; rewrite touch_node_lookup; done.
Qed.

Lemma add_weighted_edges_from_lookup es (G : Graph) (m : entity) :
  is_Some (g_node G !! m) → g_node (add_weighted_edges_from es G) !! m = g_node G !! m.
Proof.
  revert G. induction es as [|e es IH]; intros G Hm; [done|].
  rewrite add_weighted_edges_from_cons, IH; rewrite add_edge_lookup; done.
Qed.

(** A stored weight is the weight of a tuple that joins the two ends. *)
Lemma add_weighted_edges_from_weight es G (x y : entity) (w : nat) :
  wf_graph G →
  adj (add_weighted_edges_from es G) x !! y = Some w →
  (∃ e, e ∈ es ∧ joins x y e ∧ e.2 = w) ∨ adj G x !! y = Some w.
Proof.
  revert G. induction es as [|e es IH]; intros G Hwf Hw; [by right|].
  rewrite add_weighted_edges_from_cons in Hw.
  apply IH in Hw as [(e' & He' & Hj & Hw)|Hw]; [..|by apply add_edge_wf].
  { left. exists e'. split; [by right|done]. }
  rewrite add_edge_adj in Hw by done. destruct e as [[a b] n]. cbn [fst snd] in Hw.
  case_decide as Hj; [|by right].
  left. exists (a, b, n). split; [left|]. split; [done|]. by injection Hw.
Qed.

Lemma add_weighted_edges_from_symmetric es G :
  wf_graph G → (∀ x y, adj G x !! y = adj G y !! x) →
  ∀ x y, adj (add_weighted_edges_from es G) x !! y
         = adj (add_weighted_edges_from es G) y !! x.
Proof.
  revert G. induction es as [|e es IH]; intros G Hwf Hsym; [done|].
  intros x y. rewrite add_weighted_edges_from_cons.
  apply IH; [by apply add_edge_wf|]. intros x' y'.
  rewrite !add_edge_adj by done. rewrite Hsym. apply decide_ext.
  unfold joins. tauto.
Qed.

(** X6: the degree tables count rows.  Each table has one entry for every
    entity of its column of the filtered table, and the entry is the number
    of rows of that entity. *)
Theorem degree_tables_count_rows (df : DataFrame) (mu mi : option Z)
    (bc : BipartiteCommunity) (k : entity) (n : nat) :
  new df mu mi = Ok bc →
  ((k, n) ∈ user_degree bc
   ↔ k ∈ user_col (_df bc) ∧ n = occurrences k (user_col (_df bc)))
  ∧ ((k, n) ∈ item_degree bc
     ↔ k ∈ item_col (_df bc) ∧ n = occurrences k (item_col (_df bc)))
  ∧ NoDup (user_degree bc).*1 ∧ NoDup (item_degree bc).*1.
Proof.
  intros ->%new_filtered_shape. cbn [user_degree item_degree _df materialize].
  split_and!; [apply elem_of_Counter..|apply Counter_keys_NoDup|apply Counter_keys_NoDup].
Qed.

Lemma degree_tables_count_rows_witness :
  ((u1, 3) ∈ user_degree (materialize scenario_edges)
   ↔ u1 ∈ user_col (_df (materialize scenario_edges))
     ∧ 3 = occurrences u1 (user_col (_df (materialize scenario_edges))))
  ∧ ((u1, 3) ∈ item_degree (materialize scenario_edges)
     ↔ u1 ∈ item_col (_df (materialize scenario_edges))
       ∧ 3 = occurrences u1 (item_col (_df (materialize scenario_edges))))
  ∧ NoDup (user_degree (materialize scenario_edges)).*1
  ∧ NoDup (item_degree (materialize scenario_edges)).*1.
Proof.
  apply (degree_tables_count_rows scenario_edges None None). reflexivity.
Defined.

Lemma node_list_users_NoDup (df1 : DataFrame) :
  NoDup ((λ ud : entity * nat, (ud.1, {| origin := "user"; degree := ud.2 |}))
           <$> Counter (user_col df1)).*1.
Proof. rewrite <- list_fmap_compose. apply (Counter_keys_NoDup (user_col df1)). Qed.

Lemma node_list_items_NoDup (df1 : DataFrame) :
  NoDup ((λ id : entity * nat, (id.1, {| origin := "item"; degree := id.2 |}))
           <$> Counter (item_col df1)).*1.
Proof. rewrite <- list_fmap_compose. apply (Counter_keys_NoDup (item_col df1)). Qed.

(** X7: the node attributes.  Every item node carries the origin "item" and
    its item degree; a user node carries the origin "user" and its user
    degree unless its identifier is an item as well, in which case the item
    attributes have overwritten the user attributes. *)
Theorem node_attributes (df : DataFrame) (mu mi : option Z) (bc : BipartiteCommunity)
    (k : entity) :
  new df mu mi = Ok bc →
  (k ∈ item_col (_df bc) →
     g_node (_G bc) !! k
     = Some (Some {| origin := "item"; degree := occurrences k (item_col (_df bc)) |}))
  ∧ (k ∈ user_col (_df bc) → k ∉ item_col (_df bc) →
       g_node (_G bc) !! k
       = Some (Some {| origin := "user"; degree := occurrences k (user_col (_df bc)) |})).
Proof.
  intros ->%new_filtered_shape. cbn [_df _G materialize].
  set (df1 := select_rows df mu mi).
  unfold node_list. rewrite add_nodes_from_app. split.
  - intros Hk. rewrite add_weighted_edges_from_lookup.
    + apply add_nodes_from_lookup; [apply node_list_items_NoDup|].
      apply list_elem_of_fmap. exists (k, occurrences k (item_col df1)).
      split; [done|]. by apply elem_of_Counter.
    + erewrite add_nodes_from_lookup; [done|apply node_list_items_NoDup|].
      apply list_elem_of_fmap. exists (k, occurrences k (item_col df1)).
      split; [done|]. by apply elem_of_Counter.
  - intros Hu Hi.
    assert (k ∉ ((λ id : entity * nat, (id.1, {| origin := "item"; degree := id.2 |}))
                   <$> Counter (item_col df1)).*1) as Hnot.
    { rewrite <- list_fmap_compose.
      change (k ∉ (Counter (item_col df1)).*1). by rewrite elem_of_Counter_keys. }
    assert (g_node (add_nodes_from
                      ((λ id : entity * nat,
                          (id.1, {| origin := "item"; degree := id.2 |}))
                         <$> Counter (item_col df1))
                      (add_nodes_from
                         ((λ ud : entity * nat,
                             (ud.1, {| origin := "user"; degree := ud.2 |}))
                            <$> Counter (user_col df1)) empty_graph)) !! k
            = Some (Some {| origin := "user";
                            degree := occurrences k (user_col df1) |})) as Hlook.
    { rewrite add_nodes_from_other by done.
      apply add_nodes_from_lookup; [apply node_list_users_NoDup|].
      apply list_elem_of_fmap. exists (k, occurrences k (user_col df1)).
      split; [done|]. by apply elem_of_Counter. }
    rewrite add_weighted_edges_from_lookup; [done|]. by rewrite Hlook.
Qed.

Lemma node_attributes_witness :
  g_node (_G (materialize shared_ids)) !! EInt 1
  = Some (Some {| origin := "item";
                  degree := occurrences (EInt 1) (item_col (_df (materialize shared_ids))) |}).
Proof.
  destruct (node_attributes shared_ids None None (materialize shared_ids) (EInt 1))
    as [Hitem _]; [reflexivity|].
  apply Hitem. apply (bool_decide_unpack _). vm_compute. exact I.
Defined.

(** X8: the nodes of the graph are the values of the two columns of the
    filtered table, no more; every node has a neighbour, and there are at
    most as many nodes as entries in the two degree tables together. *)
Theorem graph_nodes (df : DataFrame) (mu mi : option Z) (bc : BipartiteCommunity) :
  new df mu mi = Ok bc →
  dom (g_node (_G bc)) = user_set bc ∪ item_set bc
  ∧ (∀ k, k ∈ dom (g_node (_G bc)) → neighbors (_G bc) k ≠ ∅)
  ∧ number_of_nodes (_G bc) ≤ counter_len (user_degree bc) + counter_len (item_degree bc).
Proof.
  intros ->%new_filtered_shape. set (df1 := select_rows df mu mi).
  assert (dom (g_node (_G (materialize df1)))
          = user_set (materialize df1) ∪ item_set (materialize df1)) as Hdom
    by apply materialize_nodes.
  split_and!; [done| |].
  - intros k. rewrite Hdom, elem_of_union, elem_of_user_set, elem_of_item_set.
    intros [[b Hin]|[a Hin]] Hempty.
    + apply (not_elem_of_empty (C := gset entity) b). rewrite <- Hempty.
      apply materialize_neighbors. by left.
    + apply (not_elem_of_empty (C := gset entity) a). rewrite <- Hempty.
      apply materialize_neighbors. by right.
  - destruct (materialize_node_count df1) as [-> _].
    cbn [user_degree item_degree materialize]. rewrite !counter_len_Counter.
    rewrite size_union_alt.
    assert (size (list_to_set (C := gset entity) (item_col df1)
                  ∖ list_to_set (user_col df1))
            ≤ size (list_to_set (C := gset entity) (item_col df1))); [|lia].
    apply subseteq_size. set_solver.
Qed.

Lemma graph_nodes_witness :
  dom (g_node (_G (materialize shared_ids)))
  = user_set (materialize shared_ids) ∪ item_set (materialize shared_ids)
  ∧ (∀ k, k ∈ dom (g_node (_G (materialize shared_ids))) →
          neighbors (_G (materialize shared_ids)) k ≠ ∅)
  ∧ number_of_nodes (_G (materialize shared_ids))
    ≤ counter_len (user_degree (materialize shared_ids))
      + counter_len (item_degree (materialize shared_ids)).
Proof. apply (graph_nodes shared_ids None None). reflexivity. Defined.

(** X9: the adjacency is symmetric, two keys are adjacent exactly when a
    row joins them in either order, and the weight between them is the
    number of rows of the pair in one of the two orders. *)
Theorem edge_weight_is_a_multiplicity (df : DataFrame) (mu mi : option Z)
    (bc : BipartiteCommunity) (x y : entity) :
  new df mu mi = Ok bc →
  edge_weight (_G bc) x y = edge_weight (_G bc) y x
  ∧ (is_Some (edge_weight (_G bc) x y) ↔ (x, y) ∈ _df bc ∨ (y, x) ∈ _df bc)
  ∧ (∀ w, edge_weight (_G bc) x y = Some w →
          ((x, y) ∈ _df bc ∧ w = occurrences (x, y) (_df bc))
          ∨ ((y, x) ∈ _df bc ∧ w = occurrences (y, x) (_df bc))).
Proof.
  intros ->%new_filtered_shape. set (df1 := select_rows df mu mi).
  cbn [_df materialize].
  destruct (add_nodes_from_spec (node_list df1) empty_graph wf_empty_graph)
    as (Hwf & _ & Hadj).
  split_and!.
  - unfold edge_weight. cbn [_G materialize].
    apply add_weighted_edges_from_symmetric; [done|].
    intros a b. by rewrite !Hadj, !adj_empty_graph, !lookup_empty.
  - unfold edge_weight. rewrite <- elem_of_dom. apply materialize_neighbors.
  - intros w Hw. unfold edge_weight in Hw. cbn [_G materialize] in Hw.
    apply add_weighted_edges_from_weight in Hw as [([[a b] n] & Hin & Hj & Hn)|Hw];
      [|by rewrite Hadj, adj_empty_graph, lookup_empty in Hw|done].
    apply elem_of_edge_list in Hin as [Hin ->]. unfold joins in Hj.
    cbn [fst snd] in *. subst w.
    destruct Hj as [[-> ->]|[-> ->]]; [by left|by right].
Qed.

Lemma edge_weight_is_a_multiplicity_witness :
  edge_weight (_G (materialize shared_ids_twice)) (EInt 1) (EInt 2)
  = edge_weight (_G (materialize shared_ids_twice)) (EInt 2) (EInt 1)
  ∧ (is_Some (edge_weight (_G (materialize shared_ids_twice)) (EInt 1) (EInt 2))
     ↔ (EInt 1, EInt 2) ∈ _df (materialize shared_ids_twice)
       ∨ (EInt 2, EInt 1) ∈ _df (materialize shared_ids_twice))
  ∧ (∀ w, edge_weight (_G (materialize shared_ids_twice)) (EInt 1) (EInt 2) = Some w →
          ((EInt 1, EInt 2) ∈ _df (materialize shared_ids_twice)
           ∧ w = occurrences (EInt 1, EInt 2) (_df (materialize shared_ids_twice)))
          ∨ ((EInt 2, EInt 1) ∈ _df (materialize shared_ids_twice)
             ∧ w = occurrences (EInt 2, EInt 1) (_df (materialize shared_ids_twice)))).
Proof.
  apply (edge_weight_is_a_multiplicity shared_ids_twice None None). reflexivity.
Defined.

(** X10: when the reversed pair does not occur in the filtered table, the
    weight between [x] and [y] is the number of rows [(x, y)], and there is
    no edge when there is no such row. *)
Theorem edge_weight_without_reversed_pair (df : DataFrame) (mu mi : option Z)
    (bc : BipartiteCommunity) (x y : entity) :
  new df mu mi = Ok bc →
  ((y, x) ∈ _df bc → x = y) →
  edge_weight (_G bc) x y
  = if decide ((x, y) ∈ _df bc) then Some (occurrences (x, y) (_df bc)) else None.
Proof.
  intros ->%new_filtered_shape Hrev. cbn [_df materialize] in *.
  by apply materialize_edge_weight.
Qed.

Lemma edge_weight_without_reversed_pair_witness :
  edge_weight (_G (materialize scenario_edges)) u1 i1
  = if decide ((u1, i1) ∈ _df (materialize scenario_edges))
    then Some (occurrences (u1, i1) (_df (materialize scenario_edges))) else None.
Proof.
  apply (edge_weight_without_reversed_pair scenario_edges None None); [reflexivity|].
  intros Hin. exfalso. revert Hin. apply (bool_decide_unpack _). vm_compute. exact I.
Defined.

(** ** [describe_bipartite] *)

Lemma sum_list_with_fmap {A} (f : A → nat) (l : list A) :
  sum_list_with f l = sum_list (f <$> l).
Proof. induction l as [|y l IH]; [done|]. rewrite fmap_cons. cbn. by rewrite IH. Qed.

Lemma sum_list_two {A} (f : A → nat) (l : list A) (a b : A) :
  NoDup l → a ∈ l → b ∈ l → a ≠ b → f a + f b ≤ sum_list (f <$> l).
Proof.
  intros Hnd Ha Hb Hab. rewrite <- sum_list_with_fmap.
  induction Hnd as [|x l Hx Hnd IH]; [by apply elem_of_nil in Ha|].
  cbn [sum_list_with].
  apply elem_of_cons in Ha as [->|Ha]; apply elem_of_cons in Hb as [->|Hb].
  - done.
  - pose proof (sum_list_with_in b f l Hb). lia.
  - pose proof (sum_list_with_in a f l Ha). lia.
  - specialize (IH Ha Hb). lia.
Qed.

Lemma node_degree_pos (G : Graph) (a b : entity) :
  b ∈ neighbors G a → 1 ≤ node_degree G a.
Proof.
  unfold neighbors, node_degree. intros Hb.
  assert (size (adj G a) ≠ 0); [|lia].
  rewrite <- size_dom. intros Hsize%size_empty_iff.
  by apply (not_elem_of_empty (C := gset entity) b), Hsize.
Qed.

(** A table with rows and disjoint columns has an edge. *)
Lemma number_of_edges_pos (df1 : DataFrame) :
  user_set (materialize df1) ## item_set (materialize df1) →
  df1 ≠ [] → 1 ≤ number_of_edges (_G (materialize df1)).
Proof.
  intros Hdisj Hne. destruct df1 as [|[a b] df'] eqn:Hdf; [done|]. rewrite <- Hdf in *.
  assert ((a, b) ∈ df1) as Hin by (rewrite Hdf; left).
  assert (a ≠ b) as Hab.
  { intros ->. apply (Hdisj b); [apply elem_of_user_set|apply elem_of_item_set]; eauto. }
  unfold number_of_edges.
  assert (2 ≤ sum_list (node_degree (_G (materialize df1))
                          <$> elements (dom (g_node (_G (materialize df1))))))
    as Hsum.
  { etrans; [|apply (sum_list_two _ _ a b); [apply NoDup_elements| | |done]].
    - assert (1 ≤ node_degree (_G (materialize df1)) a)
        by (apply (node_degree_pos _ a b), materialize_neighbors; by left).
      assert (1 ≤ node_degree (_G (materialize df1)) b)
        by (apply (node_degree_pos _ b a), materialize_neighbors; by right).
      lia.
    - rewrite elem_of_elements, materialize_nodes, elem_of_union. left.
      apply (elem_of_user_set df1). eauto.
    - rewrite elem_of_elements, materialize_nodes, elem_of_union. right.
      apply (elem_of_item_set df1). eauto. }
  apply Nat.div_le_lower_bound; lia.
Qed.

Lemma describe_bipartite_disjoint (df1 : DataFrame) :
  user_set (materialize df1) ## item_set (materialize df1) →
  describe_bipartite (materialize df1)
  = match df1 with [] => Raise ZeroDivisionError | _ :: _ => Ok () end.
Proof.
  intros Hdisj. destruct df1 as [|r df'] eqn:Hdf; [by vm_compute|]. rewrite <- Hdf in *.
  assert (df1 ≠ []) as Hne by (by rewrite Hdf).
  unfold describe_bipartite.
  rewrite <- (disjoint_node_count df1 Hdisj), Nat.eqb_refl. cbn [negb].
  cbn [user_degree item_degree materialize].
  rewrite !counter_total_Counter. unfold user_col, item_col.
  rewrite !length_fmap, Nat.eqb_refl. cbn [negb].
  rewrite !counter_len_Counter.
  destruct r as [a b].
  assert (size (list_to_set (C := gset entity) df1.*1) ≠ 0) as Hu.
  { intros Hsize%size_empty_iff.
    apply (not_elem_of_empty (C := gset entity) a), Hsize, elem_of_list_to_set.
    rewrite Hdf. left. }
  assert (size (list_to_set (C := gset entity) df1.*2) ≠ 0) as Hi.
  { intros Hsize%size_empty_iff.
    apply (not_elem_of_empty (C := gset entity) b), Hsize, elem_of_list_to_set.
    rewrite Hdf. left. }
  pose proof (number_of_edges_pos df1 Hdisj Hne) as He.
  destruct (Nat.eqb_spec (size (list_to_set (C := gset entity) df1.*1)) 0); [done|].
  destruct (Nat.eqb_spec (size (list_to_set (C := gset entity) df1.*2)) 0); [done|].
  destruct (Nat.eqb_spec (number_of_edges (_G (materialize df1))) 0); [lia|done].
Qed.

(** X11: [describe_bipartite] fails its assertion on the node count exactly
    when an identifier occurs in both columns of the filtered table; its
    assertion on the degree sums never fails. *)
Theorem describe_bipartite_assertion (df : DataFrame) (mu mi : option Z)
    (bc : BipartiteCommunity) :
  new df mu mi = Ok bc →
  (describe_bipartite bc = Raise AssertionError ↔ ¬ user_set bc ## item_set bc).
Proof.
  intros ->%new_filtered_shape. set (df1 := select_rows df mu mi). split.
  - intros Hraise Hdisj. rewrite describe_bipartite_disjoint in Hraise by done.
    by destruct df1.
  - intros Hnot. unfold describe_bipartite.
    destruct (Nat.eqb_spec
                (counter_len (user_degree (materialize df1))
                 + counter_len (item_degree (materialize df1)))
                (number_of_nodes (_G (materialize df1)))) as [Heq|Hne]; [|done].
    destruct Hnot. by apply materialize_node_count.
Qed.

Lemma describe_bipartite_assertion_witness :
  describe_bipartite (materialize shared_ids) = Raise AssertionError
  ↔ ¬ user_set (materialize shared_ids) ## item_set (materialize shared_ids).
Proof. apply (describe_bipartite_assertion shared_ids None None). reflexivity. Defined.

(** X12: on an instance whose filtered table has no row, [describe_bipartite]
    passes its first assertion and then divides by zero. *)
Theorem describe_bipartite_empty (df : DataFrame) (mu mi : option Z)
    (bc : BipartiteCommunity) :
  new df mu mi = Ok bc → _df bc = [] →
  describe_bipartite bc = Raise ZeroDivisionError.
Proof.
  intros ->%new_filtered_shape. cbn [_df materialize]. intros ->. by vm_compute.
Qed.

Lemma describe_bipartite_empty_witness :
  describe_bipartite (materialize []) = Raise ZeroDivisionError.
Proof.
  apply (describe_bipartite_empty [] None None); reflexivity.
Defined.

(** X13: on an instance whose filtered table has a row and whose columns
    share no identifier, [describe_bipartite] returns: both assertions hold
    and no average divides by zero. *)
Theorem describe_bipartite_returns (df : DataFrame) (mu mi : option Z)
    (bc : BipartiteCommunity) :
  new df mu mi = Ok bc → _df bc ≠ [] → user_set bc ## item_set bc →
  describe_bipartite bc = Ok ().
Proof.
  intros ->%new_filtered_shape. cbn [_df materialize]. intros Hne Hdisj.
  rewrite describe_bipartite_disjoint by done.
  by destruct (select_rows df mu mi).
Qed.

Lemma describe_bipartite_returns_witness :
  describe_bipartite (materialize scenario_edges) = Ok ().
Proof.
  apply (describe_bipartite_returns scenario_edges None None); [reflexivity|done|].
  apply (bool_decide_unpack _). vm_compute. exact I.
Defined.

(** ** The projections of an instance *)

Lemma projection_simple_weighted (B : Graph) (nodes : gset entity) (P : Graph) :
  (∀ a b, b ∈ neighbors B a ↔ a ∈ neighbors B b) →
  weighted_projected_graph B nodes = Ok P → simple_weighted P.
Proof.
  intros Hsym [_ Hedge]%weighted_projected_graph_spec x y. split_and!.
  - rewrite !Hedge, (comm_L (∩) (neighbors B y)). apply decide_ext. tauto.
  - rewrite Hedge, decide_False; [done|].
    rewrite elem_of_two_step_neighbors. tauto.
  - intros w. rewrite Hedge. case_decide as Hj; [|done]. intros [= <-].
    assert (neighbors B x ∩ neighbors B y ≠ ∅) as Hne.
    { destruct Hj as [[_ Hj]|[_ Hj]];
        apply two_step_neighbors_shared in Hj as [_ Hj]; try done.
      by rewrite (comm_L (∩)). }
    assert (size (neighbors B x ∩ neighbors B y) ≠ 0); [|lia].
    by intros ?%size_empty_iff%leibniz_equiv.
Qed.

(** X14: whatever the table, a projection that returns contains every node
    of its side, has no self-loop, has a symmetric adjacency, and gives
    every edge a weight of at least 1. *)
Theorem projection_is_simple_weighted (df : DataFrame) (mu mi : option Z)
    (bc : BipartiteCommunity) (P : Graph) :
  new df mu mi = Ok bc →
  (projection_onto_items bc = Ok P →
     item_set bc ⊆ dom (g_node P) ∧ simple_weighted P)
  ∧ (projection_onto_users bc = Ok P →
       user_set bc ⊆ dom (g_node P) ∧ simple_weighted P).
Proof.
  intros ->%new_filtered_shape. set (df1 := select_rows df mu mi).
  unfold projection_onto_items, projection_onto_users.
  split; intros HP; (split;
    [by apply weighted_projected_graph_spec in HP as [? _]
    |eapply projection_simple_weighted; [apply neighbors_symmetric|exact HP]]).
Qed.

Lemma projection_is_simple_weighted_witness :
  ∃ P, projection_onto_items (materialize crossed_ids) = Ok P
       ∧ item_set (materialize crossed_ids) ⊆ dom (g_node P) ∧ simple_weighted P.
Proof.
  destruct (projection_onto_items (materialize crossed_ids)) as [P|e] eqn:HP.
  - exists P. split; [done|].
    by apply (projection_is_simple_weighted crossed_ids None None
                (materialize crossed_ids) P).
  - apply (f_equal is_ok) in HP. vm_compute in HP. discriminate HP.
Defined.

(** X15: a projection raises exactly when its side covers every node of the
    graph, that is when every identifier of the other column occurs in its
    own column too; this includes the instance without rows. *)
Theorem projection_raises (df : DataFrame) (mu mi : option Z) (bc : BipartiteCommunity) :
  new df mu mi = Ok bc →
  (projection_onto_items bc = Raise NetworkXAlgorithmError ↔ user_set bc ⊆ item_set bc)
  ∧ (projection_onto_users bc = Raise NetworkXAlgorithmError
     ↔ item_set bc ⊆ user_set bc)
  ∧ (_df bc = [] → projection_onto_items bc = Raise NetworkXAlgorithmError
                   ∧ projection_onto_users bc = Raise NetworkXAlgorithmError).
Proof.
  intros ->%new_filtered_shape. set (df1 := select_rows df mu mi).
  assert (∀ nodes : gset entity,
            nodes ⊆ dom (g_node (_G (materialize df1))) →
            weighted_projected_graph (_G (materialize df1)) nodes
            = Raise NetworkXAlgorithmError
            ↔ dom (g_node (_G (materialize df1))) ⊆ nodes) as Hraise.
  { intros nodes Hsub.
    pose proof (weighted_projected_graph_returns (_G (materialize df1)) nodes) as Hret.
    unfold number_of_nodes in Hret. rewrite <- size_dom in Hret.
    pose proof (subseteq_size _ _ Hsub) as Hle. split.
    - intros HR. rewrite HR in Hret. cbn in Hret.
      assert (¬ size nodes < size (dom (g_node (_G (materialize df1))))) as Hge
        by (intros Hlt; by apply Hret in Hlt).
      intros k Hk. destruct (decide (k ∈ nodes)) as [|Hnot]; [done|].
      exfalso. apply Hge. apply (subset_size nodes). split; [done|].
      intros Hall. by apply Hnot, Hall.
    - intros Hall.
      assert (¬ size nodes < size (dom (g_node (_G (materialize df1))))) as Hge.
      { pose proof (subseteq_size _ _ Hall). lia. }
      unfold weighted_projected_graph in *. cbv zeta in *.
      destruct (Z.ltb_spec
                  (Z.of_nat (number_of_nodes (_G (materialize df1)))
                   - Z.of_nat (size nodes)) 1) as [|Hlt]; [done|].
      exfalso. apply Hge, Hret. done. }
  rewrite materialize_nodes in Hraise.
  fold (user_set (materialize df1)) (item_set (materialize df1)) in Hraise.
  unfold projection_onto_items, projection_onto_users.
  assert (projection_onto_items_iff :
            weighted_projected_graph (_G (materialize df1)) (item_set (materialize df1))
            = Raise NetworkXAlgorithmError
            ↔ user_set (materialize df1) ⊆ item_set (materialize df1)).
  { rewrite Hraise by set_solver. set_solver. }
  assert (projection_onto_users_iff :
            weighted_projected_graph (_G (materialize df1)) (user_set (materialize df1))
            = Raise NetworkXAlgorithmError
            ↔ item_set (materialize df1) ⊆ user_set (materialize df1)).
  { rewrite Hraise by set_solver. set_solver. }
  split_and!; [done|done|].
  cbn [_df materialize]. intros Hempty.
  split; [apply projection_onto_items_iff|apply projection_onto_users_iff];
    unfold user_set, item_set, user_col, item_col; cbn [_df materialize];
    rewrite Hempty; set_solver.
Qed.

Lemma projection_raises_witness :
  (projection_onto_items (materialize shared_ids) = Raise NetworkXAlgorithmError
   ↔ user_set (materialize shared_ids) ⊆ item_set (materialize shared_ids))
  ∧ (projection_onto_users (materialize shared_ids) = Raise NetworkXAlgorithmError
     ↔ item_set (materialize shared_ids) ⊆ user_set (materialize shared_ids))
  ∧ (_df (materialize shared_ids) = [] →
     projection_onto_items (materialize shared_ids) = Raise NetworkXAlgorithmError
     ∧ projection_onto_users (materialize shared_ids) = Raise NetworkXAlgorithmError).
Proof. apply (projection_raises shared_ids None None). reflexivity. Defined.

(** X16: when the two columns of the filtered table share no identifier,
    both projections return as soon as the table has a row; the projection
    onto the items joins two items exactly when they share a user, with the
    number of shared users as weight, and joins items to items only; and
    likewise for the projection onto the users. *)
Theorem projection_of_disjoint_columns (df : DataFrame) (mu mi : option Z)
    (bc : BipartiteCommunity) :
  new df mu mi = Ok bc → user_set bc ## item_set bc →
  (_df bc ≠ [] → is_ok (projection_onto_items bc) ∧ is_ok (projection_onto_users bc))
  ∧ (∀ P, projection_onto_items bc = Ok P →
       (∀ x y, x ∈ item_set bc → y ∈ item_set bc →
          edge_weight P x y
          = if decide (x ≠ y ∧ users_of (_df bc) x ∩ users_of (_df bc) y ≠ ∅)
            then Some (size (users_of (_df bc) x ∩ users_of (_df bc) y))
            else None)
       ∧ (∀ x y w, x ∈ item_set bc → edge_weight P x y = Some w → y ∈ item_set bc))
  ∧ (∀ P, projection_onto_users bc = Ok P →
       (∀ x y, x ∈ user_set bc → y ∈ user_set bc →
          edge_weight P x y
          = if decide (x ≠ y ∧ items_of (_df bc) x ∩ items_of (_df bc) y ≠ ∅)
            then Some (size (items_of (_df bc) x ∩ items_of (_df bc) y))
            else None)
       ∧ (∀ x y w, x ∈ user_set bc → edge_weight P x y = Some w → y ∈ user_set bc)).
Proof.
  intros ->%new_filtered_shape Hdisj. cbn [_df materialize].
  split_and!.
  - intros Hne. by apply disjoint_projection_returns.
  - intros P HP. by apply disjoint_projection_onto_items in HP as (_ & ? & ?).
  - intros P HP. by apply disjoint_projection_onto_users in HP as (_ & ? & ?).
Qed.

Lemma projection_of_disjoint_columns_witness :
  is_ok (projection_onto_items (materialize scenario_edges))
  ∧ is_ok (projection_onto_users (materialize scenario_edges)).
Proof.
  destruct (projection_of_disjoint_columns scenario_edges None None
              (materialize scenario_edges)) as (Hret & _ & _); [reflexivity| |].
  - apply (bool_decide_unpack _). vm_compute. exact I.
  - by apply Hret.
Defined.

(** ** The caches over sequences of calls *)
Section Caches.
Context {Res : Type} `{Countable Res} {Rng : Type}.
Variable default_resolution : Res.
Variable best_partition : Graph → Res → Rng → result (gmap entity nat) * Rng.

Abbreviation world := (@world Res _ _ Rng).

Lemma caches_kept_refl (w : world) : caches_kept w w.
Proof. by split_and!. Qed.

Lemma caches_kept_trans (w1 w2 w3 : world) :
  caches_kept w1 w2 → caches_kept w2 w3 → caches_kept w1 w3.
Proof.
  intros (? & ? & ? & ?) (? & ? & ? & ?). split_and!; by etrans.
Qed.

Lemma project_onto_items_keeps (self : obj BipartiteCommunity) (w : world) :
  caches_kept w (project_onto_items self w).2.
Proof.
  unfold project_onto_items, cached.
  destruct (cache_project_onto_items w !! oid self) eqn:Hlook; [apply caches_kept_refl|].
  unfold bind, lift, alloc.
  destruct (projection_onto_items (oval self)); [|apply caches_kept_refl].
  split_and!; cbn; [|done..]. by apply insert_subseteq.
Qed.

Lemma project_onto_users_keeps (self : obj BipartiteCommunity) (w : world) :
  caches_kept w (project_onto_users self w).2.
Proof.
  unfold project_onto_users, cached.
  destruct (cache_project_onto_users w !! oid self) eqn:Hlook; [apply caches_kept_refl|].
  unfold bind, lift, alloc.
  destruct (projection_onto_users (oval self)); [|apply caches_kept_refl].
  split_and!; cbn; [done| |done..]. by apply insert_subseteq.
Qed.

Lemma run_best_partition_keeps (g : Graph) (r : Res) (w : world) :
  caches_kept w (run_best_partition best_partition g r w).2.
Proof.
  unfold run_best_partition. destruct (best_partition g r (rng w)) as [[p|e] rng'];
    cbn; by split_and!.
Qed.

Lemma partition_items_keeps (self : obj BipartiteCommunity) (a : res_arg) (w : world) :
  caches_kept w (partition_items default_resolution best_partition self a w).2.
Proof.
  unfold partition_items, cached.
  destruct (cache_partition_items w !! (oid self, a)) eqn:Hlook;
    [apply caches_kept_refl|].
  pose proof (project_onto_items_keeps self w) as Hp.
  unfold bind at 1. destruct (project_onto_items self w) as [[g|e] w1]; [|done].
  cbn [snd] in Hp.
  pose proof (run_best_partition_keeps (oval g) (resolution_of default_resolution a) w1)
    as Hb.
  unfold bind, ret.
  destruct (run_best_partition best_partition (oval g)
              (resolution_of default_resolution a) w1) as [[p|e] w2];
    cbn [snd] in *; [|by eapply caches_kept_trans].
  destruct (caches_kept_trans _ _ _ Hp Hb) as (? & ? & Hpi & ?).
  split_and!; cbn; [done|done| |done].
  by apply insert_subseteq_r.
Qed.

Lemma partition_users_keeps (self : obj BipartiteCommunity) (a : res_arg) (w : world) :
  caches_kept w (partition_users default_resolution best_partition self a w).2.
Proof.
  unfold partition_users, cached.
  destruct (cache_partition_users w !! (oid self, a)) eqn:Hlook;
    [apply caches_kept_refl|].
  pose proof (project_onto_users_keeps self w) as Hp.
  unfold bind at 1. destruct (project_onto_users self w) as [[g|e] w1]; [|done].
  cbn [snd] in Hp.
  pose proof (run_best_partition_keeps (oval g) (resolution_of default_resolution a) w1)
    as Hb.
  unfold bind, ret.
  destruct (run_best_partition best_partition (oval g)
              (resolution_of default_resolution a) w1) as [[p|e] w2];
    cbn [snd] in *; [|by eapply caches_kept_trans].
  destruct (caches_kept_trans _ _ _ Hp Hb) as (? & ? & ? & Hpu).
  split_and!; cbn; [done|done|done|].
  by apply insert_subseteq_r.
Qed.

Lemma run_call_keeps (c : method_call) (w : world) :
  caches_kept w (run_call default_resolution best_partition c w).
Proof.
  destruct c; cbn [run_call];
    [apply project_onto_items_keeps|apply project_onto_users_keeps
    |apply partition_items_keeps|apply partition_users_keeps].
Qed.

Lemma run_calls_keeps (cs : list method_call) (w : world) :
  caches_kept w (run_calls default_resolution best_partition cs w).
Proof.
  unfold run_calls. revert w. induction cs as [|c cs IH]; intros w;
    [apply caches_kept_refl|].
  cbn [foldl]. eapply caches_kept_trans; [apply run_call_keeps|apply IH].
Qed.

(** X17: nothing is ever evicted or overwritten.  Once a memoised method
    has returned an object, the same call returns that very object, and
    changes nothing, after any sequence of calls of the four methods on
    any instances with any resolutions. *)
Theorem memoised_object_survives_calls (self : obj BipartiteCommunity)
    (resolution : res_arg) (cs : list method_call) (w : world) :
  (∀ g w1, project_onto_items self w = (Ok g, w1) →
     let w2 := run_calls default_resolution best_partition cs w1 in
     project_onto_items self w2 = (Ok g, w2))
  ∧ (∀ g w1, project_onto_users self w = (Ok g, w1) →
       let w2 := run_calls default_resolution best_partition cs w1 in
       project_onto_users self w2 = (Ok g, w2))
  ∧ (∀ p w1,
       partition_items default_resolution best_partition self resolution w = (Ok p, w1) →
       let w2 := run_calls default_resolution best_partition cs w1 in
       partition_items default_resolution best_partition self resolution w2 = (Ok p, w2))
  ∧ (∀ p w1,
       partition_users default_resolution best_partition self resolution w = (Ok p, w1) →
       let w2 := run_calls default_resolution best_partition cs w1 in
       partition_users default_resolution best_partition self resolution w2 = (Ok p, w2)).
Proof.
  split_and!; intros v w1 Hcall w2;
    destruct (run_calls_keeps cs w1) as (Hgi & Hgu & Hpi & Hpu);
    apply cached_stored in Hcall; try done;
    apply cached_hit.
  - by eapply lookup_weaken.
  - by eapply lookup_weaken.
  - by eapply lookup_weaken.
  - by eapply lookup_weaken.
Qed.

Lemma project_onto_items_frame (self : obj BipartiteCommunity) (w : world) :
  rng (project_onto_items self w).2 = rng w
  ∧ next_id w ≤ next_id (project_onto_items self w).2
  ∧ cache_partition_items (project_onto_items self w).2 = cache_partition_items w
  ∧ ∀ k, k ≠ oid self →
         cache_project_onto_items (project_onto_items self w).2 !! k
         = cache_project_onto_items w !! k.
Proof.
  unfold project_onto_items, cached.
  destruct (cache_project_onto_items w !! oid self); [done|].
  unfold bind, lift, alloc. destruct (projection_onto_items (oval self)); [|done].
  cbn. split_and!; [done|lia|done|]. intros k Hk. by rewrite lookup_insert_ne.
Qed.

Lemma project_onto_users_frame (self : obj BipartiteCommunity) (w : world) :
  rng (project_onto_users self w).2 = rng w
  ∧ next_id w ≤ next_id (project_onto_users self w).2
  ∧ cache_partition_users (project_onto_users self w).2 = cache_partition_users w
  ∧ ∀ k, k ≠ oid self →
         cache_project_onto_users (project_onto_users self w).2 !! k
         = cache_project_onto_users w !! k.
Proof.
  unfold project_onto_users, cached.
  destruct (cache_project_onto_users w !! oid self); [done|].
  unfold bind, lift, alloc. destruct (projection_onto_users (oval self)); [|done].
  cbn. split_and!; [done|lia|done|]. intros k Hk. by rewrite lookup_insert_ne.
Qed.

(** X18: what a miss does.  A call of [partition_items] whose key is not in
    the cache clusters the memoised projection of the instance, at the
    resolution passed or at the default when none is passed, drawing from
    the current random state; it returns a newly allocated object and
    stores it under the key of the call. *)
Theorem partition_miss_clusters_projection (self : obj BipartiteCommunity)
    (resolution : res_arg) (w w1 : world) (p : obj (gmap entity nat)) :
  cache_partition_items w !! (oid self, resolution) = None →
  partition_items default_resolution best_partition self resolution w = (Ok p, w1) →
  ∃ g, cache_project_onto_items w1 !! oid self = Some g
       ∧ best_partition (oval g) (resolution_of default_resolution resolution) (rng w)
         = (Ok (oval p), rng w1)
       ∧ cache_partition_items w1 !! (oid self, resolution) = Some p
       ∧ next_id w ≤ oid p < next_id w1.
Proof.
  intros Hmiss. unfold partition_items, cached. rewrite Hmiss.
  destruct (project_onto_items_frame self w) as (Hrng & Hid & _ & _).
  unfold bind at 1.
  destruct (project_onto_items self w) as [[g|e] w'] eqn:Hproj; [|done].
  cbn [snd] in *. apply cached_stored in Hproj; [|done].
  unfold bind, run_best_partition, ret, alloc. rewrite Hrng.
  destruct (best_partition (oval g) (resolution_of default_resolution resolution) (rng w))
    as [[p0|e] rng'] eqn:Hbp; [|done].
  intros [= <- <-]. exists g. cbn. split_and!; [done|done| |lia|lia].
  by rewrite lookup_insert_eq.
Qed.

Lemma project_onto_items_scoped (self : obj BipartiteCommunity) (w : world)
    (k : nat) (a : res_arg) :
  k ≠ oid self →
  let w' := (project_onto_items self w).2 in
  cache_project_onto_items w' !! k = cache_project_onto_items w !! k
  ∧ cache_project_onto_users w' !! k = cache_project_onto_users w !! k
  ∧ cache_partition_items w' !! (k, a) = cache_partition_items w !! (k, a)
  ∧ cache_partition_users w' !! (k, a) = cache_partition_users w !! (k, a).
Proof.
  intros Hk. unfold project_onto_items, cached.
  destruct (cache_project_onto_items w !! oid self); [done|].
  unfold bind, lift, alloc. destruct (projection_onto_items (oval self)); [|done].
  cbn. by rewrite lookup_insert_ne.
Qed.

Lemma project_onto_users_scoped (self : obj BipartiteCommunity) (w : world)
    (k : nat) (a : res_arg) :
  k ≠ oid self →
  let w' := (project_onto_users self w).2 in
  cache_project_onto_items w' !! k = cache_project_onto_items w !! k
  ∧ cache_project_onto_users w' !! k = cache_project_onto_users w !! k
  ∧ cache_partition_items w' !! (k, a) = cache_partition_items w !! (k, a)
  ∧ cache_partition_users w' !! (k, a) = cache_partition_users w !! (k, a).
Proof.
  intros Hk. unfold project_onto_users, cached.
  destruct (cache_project_onto_users w !! oid self); [done|].
  unfold bind, lift, alloc. destruct (projection_onto_users (oval self)); [|done].
  cbn. by rewrite lookup_insert_ne.
Qed.

(** X19: the caches are scoped by instance.  A call on one instance leaves
    every cache entry that is held under the identity of another instance
    as it is, in all four caches. *)
Theorem calls_are_instance_scoped (c : method_call) (w : world) (k : nat)
    (a : res_arg) :
  k ≠ oid (call_instance c) →
  let w' := run_call default_resolution best_partition c w in
  cache_project_onto_items w' !! k = cache_project_onto_items w !! k
  ∧ cache_project_onto_users w' !! k = cache_project_onto_users w !! k
  ∧ cache_partition_items w' !! (k, a) = cache_partition_items w !! (k, a)
  ∧ cache_partition_users w' !! (k, a) = cache_partition_users w !! (k, a).
Proof.
  intros Hk. destruct c as [self|self|self r|self r]; cbn [call_instance run_call] in *.
  - by apply project_onto_items_scoped.
  - by apply project_onto_users_scoped.
  - cbv zeta. unfold partition_items, cached.
    destruct (cache_partition_items w !! (oid self, r)); [done|].
    pose proof (project_onto_items_scoped self w k a Hk) as Hs. cbv zeta in Hs.
    unfold bind, run_best_partition, ret, alloc.
    destruct (project_onto_items self w) as [[g|e] w0];
      cbn [snd] in *; [|done].
    destruct (best_partition (oval g) (resolution_of default_resolution r) (rng w0))
      as [[p0|e] rng']; cbn; [|done].
    rewrite lookup_insert_ne by congruence. done.
  - cbv zeta. unfold partition_users, cached.
    destruct (cache_partition_users w !! (oid self, r)); [done|].
    pose proof (project_onto_users_scoped self w k a Hk) as Hs. cbv zeta in Hs.
    unfold bind, run_best_partition, ret, alloc.
    destruct (project_onto_users self w) as [[g|e] w0];
      cbn [snd] in *; [|done].
    destruct (best_partition (oval g) (resolution_of default_resolution r) (rng w0))
      as [[p0|e] rng']; cbn; [|done].
    rewrite lookup_insert_ne by congruence. done.
Qed.
End Caches.

Lemma memoised_object_survives_calls_witness :
  let cs := [CallPartitionItems sample_instance (Positional 10%Z);
             CallProjectOntoUsers sample_instance;
             CallPartitionUsers {| oid := 7; oval := oval sample_instance |} Omitted] in
  ∃ g1 w1 g2 w2 p1 w3 p2 w4,
    (project_onto_items sample_instance sample_world = (Ok g1, w1)
     ∧ project_onto_items sample_instance (run_calls 10%Z sample_best_partition cs w1)
       = (Ok g1, run_calls 10%Z sample_best_partition cs w1))
    ∧ (project_onto_users sample_instance sample_world = (Ok g2, w2)
       ∧ project_onto_users sample_instance (run_calls 10%Z sample_best_partition cs w2)
         = (Ok g2, run_calls 10%Z sample_best_partition cs w2))
    ∧ (partition_items 10%Z sample_best_partition sample_instance (Keyword 5%Z) sample_world
       = (Ok p1, w3)
       ∧ partition_items 10%Z sample_best_partition sample_instance (Keyword 5%Z)
           (run_calls 10%Z sample_best_partition cs w3)
         = (Ok p1, run_calls 10%Z sample_best_partition cs w3))
    ∧ (partition_users 10%Z sample_best_partition sample_instance Omitted sample_world
       = (Ok p2, w4)
       ∧ partition_users 10%Z sample_best_partition sample_instance Omitted
           (run_calls 10%Z sample_best_partition cs w4)
         = (Ok p2, run_calls 10%Z sample_best_partition cs w4)).
Proof.
  intros cs.
  destruct (project_onto_items sample_instance sample_world) as [[g1|e] w1] eqn:H1;
    [|not_raised H1].
  destruct (project_onto_users sample_instance sample_world) as [[g2|e] w2] eqn:H2;
    [|not_raised H2].
  destruct (partition_items 10%Z sample_best_partition sample_instance (Keyword 5%Z)
              sample_world) as [[p1|e] w3] eqn:H3; [|not_raised H3].
  destruct (partition_users 10%Z sample_best_partition sample_instance Omitted
              sample_world) as [[p2|e] w4] eqn:H4; [|not_raised H4].
  exists g1, w1, g2, w2, p1, w3, p2, w4.
  destruct (memoised_object_survives_calls 10%Z sample_best_partition
              sample_instance (Keyword 5%Z) cs sample_world) as (Hi & _ & Hpi & _).
  destruct (memoised_object_survives_calls 10%Z sample_best_partition
              sample_instance Omitted cs sample_world) as (_ & Hu & _ & Hpu).
  split_and!; [done|by apply Hi|done|by apply Hu|done|by apply Hpi|done|by apply Hpu].
Defined.

Lemma partition_miss_clusters_projection_witness :
  ∃ p w1 g,
    cache_partition_items sample_world !! (oid sample_instance, Omitted) = None
    ∧ partition_items 10%Z sample_best_partition sample_instance Omitted sample_world
      = (Ok p, w1)
    ∧ cache_project_onto_items w1 !! oid sample_instance = Some g
    ∧ sample_best_partition (oval g) 10%Z (rng sample_world) = (Ok (oval p), rng w1)
    ∧ cache_partition_items w1 !! (oid sample_instance, Omitted) = Some p
    ∧ next_id sample_world ≤ oid p < next_id w1.
Proof.
  destruct (partition_items 10%Z sample_best_partition sample_instance Omitted
              sample_world) as [[p|e] w1] eqn:Hcall; [|not_raised Hcall].
  destruct (partition_miss_clusters_projection 10%Z sample_best_partition
              sample_instance Omitted sample_world w1 p) as (g & Hg);
    [reflexivity|exact Hcall|].
  exists p, w1, g. split; [reflexivity|]. split; [reflexivity|]. exact Hg.
Defined.

Lemma calls_are_instance_scoped_witness :
  let c := CallPartitionItems sample_instance (Keyword 5%Z) in
  let w' := run_call 10%Z sample_best_partition c sample_world in
  1 ≠ oid (call_instance c)
  ∧ cache_project_onto_items w' !! 1 = cache_project_onto_items sample_world !! 1
  ∧ cache_project_onto_users w' !! 1 = cache_project_onto_users sample_world !! 1
  ∧ cache_partition_items w' !! (1, Omitted) = cache_partition_items sample_world !! (1, Omitted)
  ∧ cache_partition_users w' !! (1, Omitted) = cache_partition_users sample_world !! (1, Omitted).
Proof.
  intros c w'. assert (1 ≠ oid (call_instance c)) as Hk by (cbn; lia).
  split; [exact Hk|].
  exact (calls_are_instance_scoped 10%Z sample_best_partition c sample_world 1 Omitted Hk).
Defined.

(** ** Labelling and plotting ([util.py]) *)

Lemma zip_labels (key : row → entity) (partition : gmap entity nat)
    (l : list row) (cs : list nat) :
  Forall2 (λ x y, partition !! x = Some y) (key <$> l) cs →
  (zip l cs).*1 = l ∧ ∀ r c, (r, c) ∈ zip l cs → partition !! key r = Some c.
Proof.
  revert cs. induction l as [|r l IH]; intros cs Hcs.
  - split; [done|]. intros r c Hin. by apply elem_of_nil in Hin.
  - rewrite fmap_cons in Hcs. apply Forall2_cons_inv_l in Hcs as (c & cs' & Hc & Hcs' & ->).
    destruct (IH _ Hcs') as [Hfst Hlab]. cbn [zip zip_with]. rewrite fmap_cons, Hfst.
    split; [done|]. intros r' c' [[= -> ->]|Hin]%elem_of_cons; [done|by apply Hlab].
Qed.

(** X20: [label_df_partition] never raises KeyError: the rows whose key
    the partition does not hold are dropped before the lookup.  What it
    returns is the rows of the frame whose key is in the partition, in
    their order and with their multiplicity, each labelled with the
    community of its key; [inplace] makes no difference to it. *)
Theorem label_df_partition_rows (key : row → entity) (df : DataFrame)
    (partition : gmap entity nat) (inplace : bool) :
  ∃ out, label_df_partition key df partition inplace = Some out
         ∧ out.*1 = filter (λ r, key r ∈ dom partition) df
         ∧ ∀ r c, (r, c) ∈ out → partition !! key r = Some c.
Proof.
  unfold label_df_partition. replace (if inplace then df else df) with df by by destruct inplace.
  cbv zeta. set (df1 := filter _ df).
  destruct (mapM (λ x, partition !! x) (key <$> df1)) as [community|] eqn:Hm.
  - exists (zip df1 community). split; [done|].
    apply mapM_Some in Hm. by apply (zip_labels key partition).
  - exfalso. apply (eq_None_not_Some _) in Hm. apply Hm, mapM_is_Some.
    apply Forall_fmap, Forall_forall. intros r Hr%list_elem_of_filter.
    cbn. apply elem_of_dom, Hr.
Qed.

Lemma occurrences_values (partition : gmap entity nat) (c : nat) :
  occurrences c (map_to_list partition).*2
  = size (filter (λ kv, kv.2 = c) partition).
Proof.
  unfold occurrences. rewrite map_filter_alt, map_size_list_to_map.
  2:{ eapply sublist_NoDup; [apply (NoDup_fst_map_to_list partition)|].
      apply fmap_sublist, sublist_filter. }
  generalize (map_to_list partition). intros l.
  induction l as [|[k v] l IH]; [done|].
  rewrite fmap_cons, !filter_cons. cbn [snd]. case_decide; cbn [length]; by rewrite IH.
Qed.

(** X21: the bars of [plot_partition_distribution].  There is one bar for
    every community that has a node, none twice, and its height is the
    number of nodes of that community; so every bar has height at least 1
    and the heights add up to the number of nodes of the partition. *)
Theorem bar_chart_sizes (partition : gmap entity nat) :
  let ids := (bar_chart partition).1 in
  let heights := (bar_chart partition).2 in
  NoDup ids
  ∧ (∀ c n, (c, n) ∈ zip ids heights ↔
       (∃ k, partition !! k = Some c) ∧ n = size (filter (λ kv, kv.2 = c) partition))
  ∧ Forall (λ h, 1 ≤ h) heights
  ∧ sum_list heights = size partition.
Proof.
  unfold bar_chart, community_sizes. cbn [fst snd]. split_and!.
  - apply Counter_keys_NoDup.
  - intros c n. rewrite zip_fst_snd, elem_of_Counter, occurrences_values.
    rewrite list_elem_of_fmap. split.
    + intros [([k v] & -> & Hkv%elem_of_map_to_list) ->]. cbn. eauto.
    + intros [[k Hk] ->]. split; [|done]. exists (k, c). by rewrite elem_of_map_to_list.
  - apply Forall_forall. intros h ([c h'] & -> & Hin)%list_elem_of_fmap.
    apply elem_of_Counter in Hin as [Hc ->]. cbn. by apply occurrences_pos in Hc.
  - change (counter_total (Counter (map_to_list partition).*2) = size partition).
    by rewrite counter_total_Counter, length_fmap, length_map_to_list.
Qed.

(** X22: the numbers of the debug report of [optimize_modularity].  The
    number of nodes it prints is the size of the partition, the number of
    communities is the number of distinct community ids, and there are
    never more communities than nodes. *)
Theorem debug_report_counts (partition : gmap entity nat) :
  num_nodes partition = size partition
  ∧ unique_communities partition
    = size (list_to_set (map_to_list partition).*2 : gset nat)
  ∧ unique_communities partition ≤ num_nodes partition.
Proof.
  unfold num_nodes, unique_communities, community_sizes, counter_len.
  assert (length (Counter (map_to_list partition).*2)
          = size (list_to_set (C := gset nat) (map_to_list partition).*2)) as Hlen.
  { rewrite <- (length_fmap fst), <- (size_list_to_set (C := gset nat))
      by apply Counter_keys_NoDup.
    f_equal. apply set_eq. intros c.
    by rewrite !elem_of_list_to_set, elem_of_Counter_keys. }
  rewrite counter_total_Counter, length_fmap, length_map_to_list, Hlen.
  split_and!; [done|done|].
  rewrite <- (length_map_to_list partition), <- (length_fmap snd).
  generalize ((map_to_list partition).*2). intros l.
  induction l as [|x l IH]; [done|]. cbn [list_to_set foldr].
  rewrite size_union_alt, size_singleton. cbn [length].
  assert (size (list_to_set (C := gset nat) l ∖ {[x]}) ≤ size (list_to_set (C := gset nat) l))
    by (apply subseteq_size; set_solver).
  lia.
Qed.

(** X23: the median of the debug report.  With [debug] on, the report
    raises IndexError exactly when the partition is empty; otherwise the
    median community size it prints is at least 1 and at most the number
    of nodes. *)
Theorem debug_report_median (partition : gmap entity nat) :
  (median_community_size partition = Raise IndexError ↔ partition = ∅)
  ∧ ∀ c, median_community_size partition = Ok c → 1 ≤ c ≤ size partition.
Proof.
  split.
  - split; [|intros ->; reflexivity].
    intros Hraise. destruct (decide (partition = ∅)) as [|Hne]; [done|].
    apply median_community_size_ok in Hne. by rewrite Hraise in Hne.
  - intros c. unfold median_community_size. cbv zeta.
    destruct (_ !! _) as [c'|] eqn:Hc; [|done]. intros [= ->].
    apply list_elem_of_lookup_2 in Hc. rewrite merge_sort_Permutation in Hc.
    apply list_elem_of_fmap in Hc as ([k n] & -> & Hin).
    apply elem_of_Counter in Hin as [Hk ->]. cbn [snd]. split.
    + by apply occurrences_pos in Hk.
    + rewrite <- (length_map_to_list partition), <- (length_fmap snd).
      apply occurrences_le_length.
Qed.

(** ** The grid search ([optimize_modularity]) *)

Section GridSearch.
Context {Res : Type} `{Countable Res} {Score Rng : Type}.
Variable default_resolution : Res.
Variable best_partition : Graph → Res → Rng → result (gmap entity nat) * Rng.
Variable modularity : gmap entity nat → Graph → result Score.

Lemma resolution_loop_debug (bc : obj BipartiteCommunity) (projected : obj Graph)
    (min_deg : Z) (resolution : list Res) :
  ∀ data w data' w',
    resolution_loop default_resolution best_partition modularity
      bc projected min_deg true resolution data w = (Ok data', w') →
    resolution_loop default_resolution best_partition modularity
      bc projected min_deg false resolution data w = (Ok data', w').
Proof.
  induction resolution as [|res rest IH]; intros data w data' w' Hrun; [done|].
  cbn [resolution_loop] in *.
  apply bind_inv in Hrun as (p & w1 & Hp & Hrun).
  apply bind_inv in Hrun as (s & w2 & Hs & Hrun).
  apply bind_inv in Hrun as (m & w3 & Hm & Hrun).
  erewrite bind_ok by exact Hp. erewrite bind_ok by exact Hs.
  unfold lift in Hm. injection Hm as _ <-.
  erewrite bind_ok by reflexivity. by apply IH.
Qed.

Lemma threshold_loop_debug (df : DataFrame) (resolution : list Res)
    (min_item_degree : list Z) :
  ∀ data w data' w',
    threshold_loop default_resolution best_partition modularity
      df true min_item_degree resolution data w = (Ok data', w') →
    threshold_loop default_resolution best_partition modularity
      df false min_item_degree resolution data w = (Ok data', w').
Proof.
  induction min_item_degree as [|t rest IH]; intros data w data' w' Hrun; [done|].
  cbn [threshold_loop] in *.
  apply bind_inv in Hrun as (bc & w1 & Hbc & Hrun).
  apply bind_inv in Hrun as (g & w2 & Hg & Hrun).
  apply bind_inv in Hrun as (data1 & w3 & Hloop & Hrun).
  erewrite bind_ok by exact Hbc. erewrite bind_ok by exact Hg.
  erewrite bind_ok by (apply resolution_loop_debug; exact Hloop).
  by apply IH.
Qed.

(** X24: [debug] only prints.  Whenever the search with [debug] on returns
    a mapping, the search with [debug] off returns the same mapping from
    the same state, and leaves the same caches and the same random state
    behind. *)
Theorem debug_leaves_result (df : DataFrame) (min_item_degree : list Z)
    (resolution : list Res) (w w' : world) (data : gmap (Z * Res) Score) :
  optimize_modularity default_resolution best_partition modularity
    df min_item_degree resolution true w = (Ok data, w') →
  optimize_modularity default_resolution best_partition modularity
    df min_item_degree resolution false w = (Ok data, w').
Proof. apply threshold_loop_debug. Qed.

Lemma partition_items_fresh (self : obj BipartiteCommunity) (a : res_arg)
    (w w1 : world) (p : obj (gmap entity nat)) :
  partition_items default_resolution best_partition self a w = (Ok p, w1) →
  fresh w → oid self < next_id w →
  fresh w1 ∧ oid self < next_id w1.
Proof.
  intros Hcall [Hf1 Hf2] Hself. unfold partition_items, cached in Hcall.
  destruct (cache_partition_items w !! (oid self, a)); [by injection Hcall as _ <-|].
  unfold bind at 1 in Hcall. unfold project_onto_items, cached in Hcall.
  destruct (cache_project_onto_items w !! oid self) as [g|].
  - unfold bind, run_best_partition, ret, alloc in Hcall.
    destruct (best_partition (oval g) (resolution_of default_resolution a) (rng w))
      as [[p0|e] rng']; [|done].
    injection Hcall as _ <-. split; [split|]; cbn.
    + intros k o Hk%Hf1. lia.
    + intros k a' o. rewrite lookup_insert. case_decide as Hkey.
      * injection Hkey as <- <-. lia.
      * intros Hk%Hf2. lia.
    + lia.
  - unfold bind, lift, alloc, run_best_partition, ret in Hcall.
    destruct (projection_onto_items (oval self)) as [g|e]; [|done].
    cbn in Hcall.
    destruct (best_partition g (resolution_of default_resolution a) (rng w))
      as [[p0|e] rng']; [|done].
    injection Hcall as _ <-. split; [split|]; cbn.
    + intros k o. rewrite lookup_insert. case_decide as Hkey; [lia|].
      intros Hk%Hf1. lia.
    + intros k a' o. rewrite lookup_insert. case_decide as Hkey.
      * injection Hkey as <- <-. lia.
      * intros Hk%Hf2. lia.
    + lia.
Qed.

Lemma resolution_loop_fresh (bc : obj BipartiteCommunity) (projected : obj Graph)
    (min_deg : Z) (debug : bool) (resolution : list Res) :
  ∀ data w data' w',
    resolution_loop default_resolution best_partition modularity
      bc projected min_deg debug resolution data w = (Ok data', w') →
    fresh w → oid bc < next_id w → fresh w'.
Proof.
  induction resolution as [|res rest IH]; intros data w data' w' Hrun Hfresh Hbc.
  { by injection Hrun as _ <-. }
  cbn [resolution_loop] in Hrun.
  apply bind_inv in Hrun as (p & w1 & Hp & Hrun).
  apply bind_inv in Hrun as (s & w2 & Hs & Hrun).
  apply bind_inv in Hrun as (m & w3 & Hm & Hrun).
  unfold lift in Hs. injection Hs as _ <-.
  assert (w3 = w1) as -> by (destruct debug; by injection Hm as _ <-).
  destruct (partition_items_fresh _ _ _ _ _ Hp Hfresh Hbc) as [Hfresh1 Hbc1].
  by eapply IH.
Qed.

(** X25: one failing threshold loses the whole search.  Started in a state
    where no cache entry is ahead of the allocator, the search raises as
    soon as the list of thresholds holds one for which the projection of
    the filtered graph raises: the scores computed for the other
    thresholds are not returned. *)
Theorem failing_threshold_aborts_search (df : DataFrame) (min_item_degree : list Z)
    (resolution : list Res) (debug : bool) (w : world) (t : Z) (e : exn) :
  fresh w →
  t ∈ min_item_degree →
  projection_onto_items (materialize (select_rows df None (Some t))) = Raise e →
  ∃ e', (optimize_modularity default_resolution best_partition modularity
           df min_item_degree resolution debug w).1 = Raise e'.
Proof.
  intros Hfresh Ht Hfail. unfold optimize_modularity. generalize (∅ : gmap (Z * Res) Score).
  revert w Hfresh.
  induction min_item_degree as [|t0 rest IH]; intros w [Hf1 Hf2] data;
    [by apply elem_of_nil in Ht|].
  cbn [threshold_loop].
  erewrite bind_ok by apply instantiate_item_threshold.
  set (bc := {| oid := next_id w; oval := materialize (select_rows df None (Some t0)) |}).
  set (w1 := set_next_id (S (next_id w)) w).
  assert (cache_project_onto_items w1 !! oid bc = None) as Hmiss.
  { destruct (cache_project_onto_items w1 !! oid bc) as [o|] eqn:Ho; [|done].
    apply Hf1 in Ho. cbn in Ho. lia. }
  destruct (projection_onto_items (materialize (select_rows df None (Some t0))))
    as [g|e0] eqn:Hg.
  - set (projected := {| oid := next_id w1; oval := g |}).
    set (w2 := set_cache_project_onto_items
                 (<[oid bc := projected]> (cache_project_onto_items w1))
                 (set_next_id (S (next_id w1)) w1)).
    assert (project_onto_items bc w1 = (Ok projected, w2)) as Hproject.
    { unfold project_onto_items, cached. rewrite Hmiss.
      unfold bind, lift, alloc. cbn [oval bc]. by rewrite Hg. }
    erewrite bind_ok by exact Hproject.
    assert (fresh w2 ∧ oid bc < next_id w2) as [Hfresh2 Hbc2].
    { split; [split|]; cbn.
      - intros k o. rewrite lookup_insert. case_decide as Hk; [lia|].
        intros Hko%Hf1. lia.
      - intros k a o Hko%Hf2. lia.
      - lia. }
    destruct (resolution_loop default_resolution best_partition modularity
                bc projected t0 debug resolution data w2) as [[data1|e1] w3] eqn:Hrun.
    + erewrite bind_ok by exact Hrun. apply IH.
      * apply elem_of_cons in Ht as [->|Ht]; [congruence|done].
      * by eapply resolution_loop_fresh.
    + erewrite bind_raise by exact Hrun. by exists e1.
  - assert (project_onto_items bc w1 = (Raise e0, w1)) as Hproject.
    { unfold project_onto_items, cached. rewrite Hmiss.
      unfold bind, lift. cbn [oval bc]. by rewrite Hg. }
    erewrite bind_raise by exact Hproject. by exists e0.
Qed.
End GridSearch.

Lemma debug_leaves_result_witness :
  ∃ data w',
    optimize_modularity 10%Z sample_best_partition sample_modularity
      scenario_edges [1%Z; 2%Z] [5%Z; 10%Z] true (initial_world 0) = (Ok data, w')
    ∧ optimize_modularity 10%Z sample_best_partition sample_modularity
        scenario_edges [1%Z; 2%Z] [5%Z; 10%Z] false (initial_world 0) = (Ok data, w').
Proof.
  destruct (optimize_modularity 10%Z sample_best_partition sample_modularity
              scenario_edges [1%Z; 2%Z] [5%Z; 10%Z] true (initial_world 0))
    as [[data|e] w'] eqn:Hrun; [|not_raised Hrun].
  exists data, w'. split; [reflexivity|].
  apply (debug_leaves_result 10%Z sample_best_partition sample_modularity
           scenario_edges [1%Z; 2%Z] [5%Z; 10%Z] (initial_world 0) w' data Hrun).
Defined.

Lemma failing_threshold_aborts_search_witness :
  fresh (Res := Z) (initial_world 0)
  ∧ 5%Z ∈ [1%Z; 5%Z; 2%Z]
  ∧ projection_onto_items (materialize (select_rows scenario_edges None (Some 5%Z)))
    = Raise NetworkXAlgorithmError
  ∧ ∃ e', (optimize_modularity 10%Z sample_best_partition sample_modularity
             scenario_edges [1%Z; 5%Z; 2%Z] [5%Z; 10%Z] true (initial_world 0)).1
          = Raise e'.
Proof.
  assert (fresh (Res := Z) (Rng := nat) (initial_world 0)) as Hfresh
    by apply fresh_initial_world.
  assert (5%Z ∈ [1%Z; 5%Z; 2%Z]) as Hin by (rewrite !elem_of_cons; auto).
  assert (projection_onto_items (materialize (select_rows scenario_edges None (Some 5%Z)))
          = Raise NetworkXAlgorithmError) as Hfail by (vm_compute; reflexivity).
  split_and!; [exact Hfresh|exact Hin|exact Hfail|].
  exact (failing_threshold_aborts_search 10%Z sample_best_partition sample_modularity
           scenario_edges [1%Z; 5%Z; 2%Z] [5%Z; 10%Z] true (initial_world 0) 5%Z
           NetworkXAlgorithmError Hfresh Hin Hfail).
Defined.

Section GridEntries.
Context {Res : Type} `{Countable Res} {Score Rng : Type}.
Variable default_resolution : Res.
Variable best_partition : Graph → Res → Rng → result (gmap entity nat) * Rng.
Variable modularity : gmap entity nat → Graph → result Score.

Lemma length_remove_dups_le {A} `{EqDecision A} (l : list A) :
  length (remove_dups l) ≤ length l.
Proof.
  apply submseteq_length, NoDup_submseteq; [apply NoDup_remove_dups|].
  intros x. by rewrite elem_of_remove_dups.
Qed.

(** X26: the size of the mapping for any grid.  When no iteration raises,
    the search returns a mapping with one entry for every pair of a
    threshold and a resolution that occur in the two lists, whether once
    or several times: its size is the number of distinct thresholds times
    the number of distinct resolutions, which is at most [|T| * |R|]. *)
Theorem grid_search_entries (df : DataFrame) (min_item_degree : list Z)
    (resolution : list Res) (debug : bool) (w : world) :
  fresh w →
  (∀ t, t ∈ min_item_degree →
        threshold_completes best_partition modularity df debug resolution t) →
  ∃ data w',
    optimize_modularity default_resolution best_partition modularity
      df min_item_degree resolution debug w = (Ok data, w')
    ∧ size data = length (remove_dups min_item_degree) * length (remove_dups resolution)
    ∧ size data ≤ length min_item_degree * length resolution.
Proof.
  intros Hfresh Hgrid. unfold optimize_modularity.
  destruct (threshold_loop_completes default_resolution best_partition modularity
              df debug resolution min_item_degree ∅ w)
    as (data & w' & Hrun & _ & Hdom & _); [done|done|apply map_Forall_empty|].
  exists data, w'. split; [done|].
  assert (size data = length (remove_dups min_item_degree) * length (remove_dups resolution))
    as Hsize.
  { rewrite <- size_dom, <- length_prod.
    rewrite <- (size_list_to_set (C := gset (Z * Res)));
      [|apply NoDup_list_prod; apply NoDup_remove_dups].
    f_equal. apply set_eq. intros [t r].
    rewrite Hdom, elem_of_list_to_set.
    rewrite (list_elem_of_In (list_prod _ _)).
    rewrite (in_prod_iff _ _ t r), <- !list_elem_of_In, !elem_of_remove_dups.
    rewrite dom_empty_L, elem_of_empty. cbn [fst snd]. tauto. }
  split; [done|]. rewrite Hsize.
  apply Nat.mul_le_mono; apply length_remove_dups_le.
Qed.
End GridEntries.

Lemma grid_search_entries_witness :
  ∃ data w',
    optimize_modularity 10%Z sample_best_partition sample_modularity
      scenario_edges [1%Z; 2%Z; 1%Z] [5%Z; 10%Z] true (initial_world 0) = (Ok data, w')
    ∧ size data = length (remove_dups [1%Z; 2%Z; 1%Z]) * length (remove_dups [5%Z; 10%Z])
    ∧ size data ≤ length [1%Z; 2%Z; 1%Z] * length [5%Z; 10%Z].
Proof.
  apply (grid_search_entries 10%Z sample_best_partition sample_modularity
           scenario_edges [1%Z; 2%Z; 1%Z] [5%Z; 10%Z] true (initial_world 0)).
  - apply fresh_initial_world.
  - intros t Ht. rewrite !elem_of_cons, elem_of_nil in Ht.
    destruct Ht as [->|[->|[->|[]]]].
    + apply (sample_threshold_completes 1 1). vm_compute. reflexivity.
    + apply (sample_threshold_completes 2 0). vm_compute. reflexivity.
    + apply (sample_threshold_completes 1 1). vm_compute. reflexivity.
Defined.
